(** * PDF to Markdown converter: a shallow embedding of [main.py]

    The development follows the conversion core of [main.py]:
    [extract_text_with_formatting], [extract_images_as_base64] and
    [convert_pdf_to_markdown].  The PyMuPDF reader is an external
    collaborator; what it hands to the converter (the dictionaries of
    blocks, lines and spans, the image lists, the extracted images, and
    the exceptions its calls may raise) is the input of the model.

    Conventions.
    - A Python [str] is a list of Unicode code points ([N]).
    - A font size is a Python number, carried as its exact value in [Q]:
      comparisons are exact, as they are in Python, and the results of
      the floating-point sum and quotient are rounded to the nearest
      double by [fl].
    - A Python [int] used as a flag word is a [Z], tested with [Z.land].
    - A call that may raise returns a [result]. *)

From Stdlib.Strings Require Import Byte.
From Stdlib Require Import Ascii String.
From Stdlib Require Import List ZArith NArith QArith Qround Qpower.
From Stdlib Require Import Bool Lia Lqa Sorted.
From Stdlib Require DecimalString DecimalNat DecimalFacts.
Import ListNotations.

Local Open Scope list_scope.

(** ** Strings *)

Definition char := N.
Definition str := list char.

(** A string literal of the source, as code points. *)
Definition lit (s : string) : str := map N_of_ascii (list_ascii_of_string s).

Arguments lit s%_string.

(** The line feed of the source's ["\n"]. *)
Definition nl : str := [10%N].

(** Characters removed by [str.strip()]: the code points Python regards as
    white space. *)
Definition isspace (c : char) : bool :=
  ((9 <=? c) && (c <=? 13) || (28 <=? c) && (c <=? 32)
   || (c =? 133) || (c =? 160) || (c =? 5760)
   || (8192 <=? c) && (c <=? 8202)
   || (c =? 8232) || (c =? 8233) || (c =? 8239) || (c =? 8287)
   || (c =? 12288))%N.

Fixpoint lstrip (s : str) : str :=
  match s with
  | [] => []
  | c :: t => if isspace c then lstrip t else s
  end.

Definition rstrip (s : str) : str := rev (lstrip (rev s)).

Definition strip (s : str) : str := rstrip (lstrip s).

(** [sep.join(parts)]. *)
Fixpoint join (sep : str) (parts : list str) : str :=
  match parts with
  | [] => []
  | [p] => p
  | p :: rest => p ++ sep ++ join sep rest
  end.

(** [str(n)] for a non-negative [int], as used by the f-strings. *)
Definition str_of_nat (n : nat) : str :=
  lit (DecimalString.NilZero.string_of_uint (Nat.to_uint n)).

(** Truth value of a Python [int]. *)
Definition truthy (z : Z) : bool := negb (z =? 0)%Z.

(** ** Font sizes

    A font size is a Python number: a double reported by the reader, or one
    of the integers [0] and [12] that the source writes.  It is carried as
    its exact rational value, on which Python's comparisons are exact.  The
    doubles [inf] and [nan], which are no font sizes, have no value in [Q]
    and are outside the model. *)

Definition Qltb (a b : Q) : bool := negb (Qle_bool b a).

(** [max(a, b)]: the first argument unless the second is strictly larger. *)
Definition py_max (a b : Q) : Q := if Qltb a b then b else a.

(** *** Double precision

    A Python [float] is an IEEE 754 double: 53 significant bits, least
    quantum [2 ^ -1074], round to nearest with ties to even. *)

(** The largest [e] with [2 ^ e <= q], for a positive [q]. *)
Definition floor_log2 (q : Q) : Z :=
  let e := (Z.log2 (Qnum q) - Z.log2 (Z.pos (Qden q)))%Z in
  if Qle_bool (2 ^ e) q then e else (e - 1)%Z.

(** The integer nearest to [q], the even one of two that are equally near. *)
Definition round_half_even (q : Q) : Z :=
  let f := Qfloor q in
  match Qcompare (q - inject_Z f) (1 # 2) with
  | Lt => f
  | Gt => (f + 1)%Z
  | Eq => if Z.even f then f else (f + 1)%Z
  end.

(** The quantum of the binade of a positive [q]: doubles near [q] are the
    multiples of it. *)
Definition quantum_exponent (q : Q) : Z :=
  Z.max (floor_log2 q - 52) (-1074).

Definition quantum (q : Q) : Q := 2 ^ quantum_exponent q.

(** The multiple of the quantum nearest to a positive [q]. *)
Definition to_grid (q : Q) : Q :=
  inject_Z (round_half_even (q / quantum q)) * quantum q.

(** The double nearest to a positive [q].  Beyond the largest double the
    result is Python's [inf], carried as [2 ^ 1024], which is above every
    double. *)
Definition round_positive (q : Q) : Q :=
  let r := Qred (to_grid q) in
  if Qle_bool (2 ^ 1024) r then 2 ^ 1024 else r.

(** The double nearest to [q]; a double is rounded to itself. *)
Definition fl (q : Q) : Q :=
  let q := Qred q in
  match Qnum q with
  | Z0 => 0
  | Zpos _ => round_positive q
  | Zneg _ => - round_positive (- q)
  end.

(** [a + b] and [a / b] in double precision: the operands as doubles, the
    exact result rounded. *)
Definition float_add (a b : Q) : Q := fl (fl a + fl b).
Definition float_div (a b : Q) : Q := fl (fl a / fl b).

(** ** The page dictionary of the reader *)

(** A span dictionary; an absent key is [None] and is read with the default
    of the corresponding [span.get]. *)
Record Span := mkSpan {
  text : option str;
  size : option Q;
  flags : option Z
}.

Record Line := mkLine { spans : option (list Span) }.

Record Block := mkBlock {
  type : Z;
  lines : option (list Line)
}.

Definition get {A : Type} (field : option A) (default : A) : A :=
  match field with
  | Some v => v
  | None => default
  end.

(** ** Exceptions *)

Inductive exn :=
| Exception (message : str)
| HTTPException (status_code : nat) (detail : str).

Inductive result (A : Type) :=
| Ok (a : A)
| Raise (e : exn).

Arguments Ok {A} a.
Arguments Raise {A} e.

Definition bind {A B : Type} (r : result A) (k : A -> result B) : result B :=
  match r with
  | Ok a => k a
  | Raise e => Raise e
  end.

Notation "x <- r ;; k" := (bind r (fun x => k))
  (at level 61, r at next level, right associativity).

(** ** [extract_text_with_formatting] *)

Definition is_bold (span : Span) : Z := Z.land (get (flags span) 0%Z) 16.
Definition is_italic (span : Span) : Z := Z.land (get (flags span) 0%Z) 2.

(** Lines 60-76: the text of a span with its emphasis markers. *)
Definition format_span (span : Span) : str :=
  let text := get (text span) [] in
  if truthy (is_bold span) && truthy (is_italic span) then
    lit "***" ++ text ++ lit "***"
  else if truthy (is_bold span) then
    lit "**" ++ text ++ lit "**"
  else if truthy (is_italic span) then
    lit "*" ++ text ++ lit "*"
  else text.

(** One iteration of the loop over the spans of a line (lines 59-78). *)
Definition span_step (acc : str * Q) (span : Span) : str * Q :=
  let '(line_text, max_font_size) := acc in
  let font_size := get (size span) 12 in
  let max_font_size := py_max max_font_size font_size in
  (line_text ++ format_span span, max_font_size).

(** Lines 56-78: [line_text] and [max_font_size] when the loop ends. *)
Definition scan_line (line : Line) : str * Q :=
  fold_left span_step (get (spans line) []) ([], 0).

(** One iteration of the loop over the lines of a block (lines 55-81). *)
Definition line_step (block_text : list (str * Q)) (line : Line)
  : list (str * Q) :=
  let '(line_text, max_font_size) := scan_line line in
  match strip line_text with
  | [] => block_text
  | _ :: _ => block_text ++ [(strip line_text, max_font_size)]
  end.

(** Lines 54-81: [block_text] of a text block. *)
Definition block_lines (block : Block) : list (str * Q) :=
  fold_left line_step (get (lines block) []) [].

(** [sum(fs for _, fs in block_text)]: the sizes are added one by one from
    the left, starting from [0], each partial sum a double.  This is the
    plain accumulation loop of [sum] (CPython up to 3.11; later versions
    carry a correction term beside the accumulator).  Sums of the integers
    [0] and [12] alone, which Python adds exactly, are the same numbers as
    long as they stay below [2 ^ 53]. *)
Definition sum_sizes (block_text : list (str * Q)) : Q :=
  fold_left float_add (map snd block_text) 0.

(** Line 85: the sum divided by [len(block_text)], the quotient rounded to
    a double. *)
Definition avg_font_size (block_text : list (str * Q)) : Q :=
  float_div (sum_sizes block_text)
            (inject_Z (Z.of_nat (length block_text))).

Definition combined_text (block_text : list (str * Q)) : str :=
  join (lit " ") (map fst block_text).

(** Lines 84-96: what a block appends to [markdown_content], if anything. *)
Definition render_block_text (block_text : list (str * Q)) : option str :=
  match block_text with
  | [] => None
  | _ :: _ =>
      let avg_font_size := avg_font_size block_text in
      let combined_text := combined_text block_text in
      if Qltb 18 avg_font_size then Some (lit "# " ++ combined_text)
      else if Qltb 14 avg_font_size then Some (lit "## " ++ combined_text)
      else if Qltb 12 avg_font_size then Some (lit "### " ++ combined_text)
      else Some combined_text
  end.

(** One iteration of the loop over the blocks of a page (lines 52-96). *)
Definition block_step (markdown_content : list str) (block : Block)
  : list str :=
  if (type block =? 0)%Z then
    match render_block_text (block_lines block) with
    | Some s => markdown_content ++ [s]
    | None => markdown_content
    end
  else markdown_content.

Definition render_blocks (blocks : list Block) : str :=
  join (nl ++ nl) (fold_left block_step blocks []).

(** ** The reader's pages, images and documents *)

(** An entry of [page.get_images(full=True)]; only item [0], the
    cross-reference number, is read. *)
Record ImgInfo := mkImgInfo { xref : Z }.

(** The dictionary returned by [extract_image]. *)
Record BaseImage := mkBaseImage {
  image : list byte;
  ext : str
}.

(** A loaded page: the outcome of [page.get_text("dict")["blocks"]] and of
    [page.get_images(full=True)]. *)
Record Page := mkPage {
  get_text_blocks : result (list Block);
  get_images : result (list ImgInfo)
}.

(** An open document: [pages] holds, for each page number, the outcome of
    loading that page ([pdf_document[page_number]]); [extract_image] is the
    outcome of [extract_image(xref)]. *)
Record Document := mkDocument {
  pages : list (result Page);
  extract_image : Z -> result BaseImage
}.

(** ** [base64.b64encode(...).decode("utf-8")] *)

Definition b64_alphabet : str :=
  lit "ABCDEFGHIJKLMNOPQRSTUVWXYZabcdefghijklmnopqrstuvwxyz0123456789+/".

Definition b64_char (sextet : N) : char :=
  nth (N.to_nat (N.land sextet 63)) b64_alphabet 0%N.

Definition b64_pad : char := 61%N.

Fixpoint b64encode (data : list byte) : str :=
  match data with
  | [] => []
  | [a] =>
      let n := N.shiftl (Byte.to_N a) 16 in
      [b64_char (N.shiftr n 18); b64_char (N.shiftr n 12); b64_pad; b64_pad]
  | [a; b] =>
      let n := N.lor (N.shiftl (Byte.to_N a) 16) (N.shiftl (Byte.to_N b) 8) in
      [b64_char (N.shiftr n 18); b64_char (N.shiftr n 12);
       b64_char (N.shiftr n 6); b64_pad]
  | a :: b :: c :: rest =>
      let n := N.lor (N.lor (N.shiftl (Byte.to_N a) 16)
                            (N.shiftl (Byte.to_N b) 8)) (Byte.to_N c) in
      [b64_char (N.shiftr n 18); b64_char (N.shiftr n 12);
       b64_char (N.shiftr n 6); b64_char n] ++ b64encode rest
  end.

(** ** [extract_images_as_base64] *)

(** An entry of the returned list. *)
Record ImageDict := mkImageDict {
  page : nat;
  index : nat;
  format : str;
  base64 : str
}.

(** One iteration of the loop over [enumerate(image_list)] (lines 115-133);
    an exception raised in the [try] body skips the image. *)
Definition image_step (parent : Document) (page_number : nat)
    (acc : nat * list ImageDict) (img_info : ImgInfo)
  : nat * list ImageDict :=
  let '(img_index, images) := acc in
  (S img_index,
   match extract_image parent (xref img_info) with
   | Ok base_image =>
       let image_bytes := image base_image in
       let image_ext := ext base_image in
       let encoded_image := b64encode image_bytes in
       images ++ [ {| page := page_number;
                      index := img_index;
                      format := image_ext;
                      base64 := encoded_image |} ]
   | Raise _ => images
   end).

Definition extract_images_as_base64 (parent : Document) (pg : Page)
    (page_number : nat) : result (list ImageDict) :=
  image_list <- get_images pg ;;
  Ok (snd (fold_left (image_step parent page_number) image_list (0%nat, []))).

Definition extract_text_with_formatting (pg : Page) : result str :=
  blocks <- get_text_blocks pg ;;
  Ok (render_blocks blocks).

(** ** [convert_pdf_to_markdown] *)

(** The returned dictionary; [images] is [None] when the key is absent. *)
Record Result := mkResult {
  markdown : str;
  images : option (list ImageDict)
}.

(** [str(error)]. *)
Definition str_of_exn (error : exn) : str :=
  match error with
  | Exception message => message
  | HTTPException status_code detail =>
      str_of_nat status_code ++ lit ": " ++ detail
  end.

(** Line 173. *)
Definition page_separator (page_number : nat) : str :=
  nl ++ lit "---" ++ nl ++ nl ++ lit "*Page " ++ str_of_nat (page_number + 1)
     ++ lit "*" ++ nl.

(** Line 183. *)
Definition image_markdown (img : ImageDict) : str :=
  nl ++ nl ++ lit "![Image " ++ str_of_nat (index img + 1)
     ++ lit " from page " ++ str_of_nat (page img)
     ++ lit "](data:image/" ++ format img ++ lit ";base64," ++ base64 img
     ++ lit ")" ++ nl.

(** A [for] loop whose body may raise. *)
Fixpoint for_each {A S : Type} (body : S -> A -> result S) (items : list A)
    (s : S) : result S :=
  match items with
  | [] => Ok s
  | x :: rest => s' <- body s x ;; for_each body rest s'
  end.

(** Lines 177-186: the page's markdown and [all_images] after the image
    branch. *)
Definition image_branch (pdf_document : Document) (pg : Page)
    (page_number : nat) (include_images embed_images : bool)
    (page_markdown : str) (all_images : list ImageDict)
  : result (str * list ImageDict) :=
  if include_images then
    page_images <- extract_images_as_base64 pdf_document pg (page_number + 1) ;;
    match embed_images, page_images with
    | true, _ :: _ =>
        Ok (fold_left (fun page_markdown img => page_markdown ++ image_markdown img)
                      page_images page_markdown,
            all_images)
    | _, _ => Ok (page_markdown, all_images ++ page_images)
    end
  else Ok (page_markdown, all_images).

(** One iteration of the loop over the page numbers (lines 168-188). *)
Definition page_step (pdf_document : Document)
    (include_images embed_images : bool)
    (acc : list str * list ImageDict) (page_number : nat)
  : result (list str * list ImageDict) :=
  let '(markdown_pages, all_images) := acc in
  pg <- nth page_number (pages pdf_document)
            (Raise (Exception (lit "page not in document"))) ;;
  let markdown_pages :=
    if (0 <? page_number)%nat
    then markdown_pages ++ [page_separator page_number]
    else markdown_pages in
  page_markdown <- extract_text_with_formatting pg ;;
  pm_imgs <- image_branch pdf_document pg page_number include_images
               embed_images page_markdown all_images ;;
  Ok (markdown_pages ++ [fst pm_imgs], snd pm_imgs).

Section Converter.

(** [fitz.open(stream=pdf_bytes, filetype="pdf")]. *)
Variable fitz_open : list byte -> result Document.

(** The state threaded through a conversion is the number of times
    [close()] has been called on the document opened by it. *)
Definition convert_pdf_to_markdown (pdf_bytes : list byte)
    (include_images embed_images : bool) (closes : nat)
  : result Result * nat :=
  match fitz_open pdf_bytes with
  | Raise error =>
      (Raise (HTTPException 400
                (lit "Failed to parse PDF: " ++ str_of_exn error)),
       closes)
  | Ok pdf_document =>
      match for_each (page_step pdf_document include_images embed_images)
                     (seq 0 (length (pages pdf_document))) ([], []) with
      | Raise e => (Raise e, closes)
      | Ok (markdown_pages, all_images) =>
          let closes := S closes in
          let final_markdown := join (nl ++ nl) markdown_pages in
          (Ok {| markdown := final_markdown;
                 images := if include_images && negb embed_images
                           then Some all_images else None |},
           closes)
      end
  end.

End Converter.

(** The loop body on the outcome [r] of loading the page. *)
Definition page_body (doc : Document) (include_images embed_images : bool)
    (acc : list str * list ImageDict) (page_number : nat) (r : result Page)
  : result (list str * list ImageDict) :=
  pg <- r ;;
  page_markdown <- extract_text_with_formatting pg ;;
  pm_imgs <- image_branch doc pg page_number include_images embed_images
               page_markdown (snd acc) ;;
  Ok ((if (0 <? page_number)%nat
       then fst acc ++ [page_separator page_number]
       else fst acc) ++ [fst pm_imgs],
      snd pm_imgs).

(** ** Notions used to state the properties *)

(** The span formatter outputs of a line, concatenated with no separator. *)
Definition line_text (line : Line) : str :=
  concat (map format_span (get (spans line) [])).

(** The font sizes of the spans of a line, as the loop reads them. *)
Definition span_sizes (line : Line) : list Q :=
  map (fun span => get (size span) 12) (get (spans line) []).

(** [m] is the largest element of [qs]. *)
Definition is_max_of (m : Q) (qs : list Q) : Prop :=
  (exists q, In q qs /\ q == m) /\ (forall q, In q qs -> q <= m).

(** A line survives when its trimmed text is not empty. *)
Definition survives (line : Line) : bool :=
  match strip (line_text line) with
  | [] => false
  | _ :: _ => true
  end.

(** The unweighted mean of [qs] in double precision: the sizes summed from
    the left, the sum divided by their number. *)
Definition float_mean (qs : list Q) : Q :=
  float_div (fold_left float_add qs 0) (inject_Z (Z.of_nat (length qs))).

(** The representative sizes of the surviving lines of a block, in order. *)
Definition kept_sizes (block : Block) : list Q :=
  map (fun line => snd (scan_line line))
      (filter survives (get (lines block) [])).

(** [haystack.startswith(needle)] and [needle in haystack]. *)
Fixpoint starts_with (needle haystack : str) : bool :=
  match needle, haystack with
  | [], _ => true
  | _ :: _, [] => false
  | a :: needle', b :: haystack' => (a =? b)%N && starts_with needle' haystack'
  end.

Fixpoint contains (needle haystack : str) : bool :=
  starts_with needle haystack
  || match haystack with
     | [] => false
     | _ :: rest => contains needle rest
     end.

(** The image entries of a page: one per image of [image_list] whose
    extraction succeeds, with its position in [image_list]. *)
Definition image_entry (parent : Document) (page_number : nat)
    (numbered : nat * ImgInfo) : list ImageDict :=
  match extract_image parent (xref (snd numbered)) with
  | Ok base_image =>
      [ {| page := page_number;
           index := fst numbered;
           format := ext base_image;
           base64 := b64encode (image base_image) |} ]
  | Raise _ => []
  end.

Definition enumerate {A : Type} (start : nat) (items : list A)
  : list (nat * A) :=
  combine (seq start (length items)) items.

Definition image_entries (parent : Document) (page_number : nat)
    (image_list : list ImgInfo) : list ImageDict :=
  flat_map (image_entry parent page_number) (enumerate 0 image_list).

(** A page all of whose reader calls made by the conversion succeed. *)
Definition readable (include_images : bool) (r : result Page) : bool :=
  match r with
  | Ok pg =>
      match get_text_blocks pg with
      | Ok _ => if include_images
                then match get_images pg with Ok _ => true | Raise _ => false end
                else true
      | Raise _ => false
      end
  | Raise _ => false
  end.

Definition all_readable (include_images : bool) (doc : Document) : bool :=
  forallb (readable include_images) (pages doc).

(** The rendered text of a page and its extracted images, where the reader
    calls succeed. *)
Definition text_of (r : result Page) : str :=
  match r with
  | Ok pg => match get_text_blocks pg with
             | Ok blocks => render_blocks blocks
             | Raise _ => []
             end
  | Raise _ => []
  end.

Definition images_of (doc : Document) (page_number : nat) (r : result Page)
  : list ImageDict :=
  match r with
  | Ok pg => match get_images pg with
             | Ok image_list => image_entries doc (page_number + 1) image_list
             | Raise _ => []
             end
  | Raise _ => []
  end.

(** The string a page contributes to the page-text sequence. *)
Definition page_markdown_of (doc : Document)
    (include_images embed_images : bool) (page_number : nat)
    (r : result Page) : str :=
  text_of r ++
  (if include_images && embed_images
   then concat (map image_markdown (images_of doc page_number r))
   else []).

(** The page-text sequence: each page's string, preceded by a separator for
    every page but the first. *)
Fixpoint page_sequence (doc : Document) (include_images embed_images : bool)
    (page_number : nat) (ps : list (result Page)) : list str :=
  match ps with
  | [] => []
  | r :: rest =>
      (if (0 <? page_number)%nat then [page_separator page_number] else [])
      ++ [page_markdown_of doc include_images embed_images page_number r]
      ++ page_sequence doc include_images embed_images (S page_number) rest
  end.

(** The document-wide image list: the pages' image entries in page order. *)
Definition document_images (doc : Document) : list ImageDict :=
  flat_map (fun numbered => images_of doc (fst numbered) (snd numbered))
           (enumerate 0 (pages doc)).

(** Whether the extraction of an image succeeds. *)
Definition extractable (parent : Document) (img_info : ImgInfo) : bool :=
  match extract_image parent (xref img_info) with
  | Ok _ => true
  | Raise _ => false
  end.

(** Page order, then in-page index order. *)
Definition image_before (a b : ImageDict) : Prop :=
  (page a < page b)%nat \/ (page a = page b /\ (index a < index b)%nat).

(** Whether an element of the page-text sequence is a separator fragment. *)
Definition is_page_separator (s : str) : bool :=
  starts_with (nl ++ lit "---" ++ nl ++ nl ++ lit "*Page ") s.

(** A string that is not empty and does not begin with white space. *)
Definition begins_with_text (s : str) : Prop :=
  match s with
  | [] => False
  | c :: _ => isspace c = false
  end.

(** ** Sample inputs *)

Definition plain_span (s : string) (font_size : Q) : Span :=
  mkSpan (Some (lit s)) (Some font_size) (Some 0%Z).

Arguments plain_span s%_string font_size%_Q.

(** A text block of one line. *)
Definition one_line_block (spans : list Span) : Block :=
  mkBlock 0 (Some [mkLine (Some spans)]).

Definition sample_image : BaseImage := mkBaseImage [x4d] (lit "png").

(** An [extract_image] that fails on cross-reference 6 only. *)
Definition sample_extract (xref : Z) : result BaseImage :=
  if (xref =? 6)%Z then Raise (Exception (lit "bad image"))
  else Ok sample_image.

(** A page with a 24pt title and three images, the second of which cannot
    be extracted. *)
Definition sample_page : Page :=
  mkPage (Ok [one_line_block [plain_span "Title" 24]])
         (Ok [mkImgInfo 5; mkImgInfo 6; mkImgInfo 7]).

Definition sample_document : Document :=
  mkDocument [Ok sample_page; Ok sample_page] sample_extract.

Definition empty_document : Document := mkDocument [] sample_extract.

(** A page whose own text reads like a data URI. *)
Definition data_uri_page : Page :=
  mkPage (Ok [one_line_block [plain_span "data:image/png;base64,AAAA" 12]])
         (Ok []).

Definition data_uri_document : Document :=
  mkDocument [Ok data_uri_page] sample_extract.

(** A document that opens but whose only page cannot be loaded. *)
Definition broken_page_document : Document :=
  mkDocument [Raise (Exception (lit "cannot load page"))] sample_extract.

(** A document that opens and whose second page cannot be loaded. *)
Definition partly_broken_document : Document :=
  mkDocument [Ok sample_page; Raise (Exception (lit "cannot load page"))]
             sample_extract.

(** A one-page document whose text reads like the separator of a seventh
    page: a rule, then the italic caption [Page 7]. *)
Definition separator_text_page : Page :=
  mkPage (Ok [one_line_block [plain_span "x" 12];
              one_line_block [plain_span "---" 12];
              one_line_block [mkSpan (Some (lit "Page 7")) (Some 12)
                                     (Some 2%Z)];
              one_line_block [plain_span "y" 12]])
         (Ok []).

Definition separator_text_document : Document :=
  mkDocument [Ok separator_text_page] sample_extract.

(** Readers that open every input as a given document, or refuse every
    input. *)
Definition open_as (doc : Document) (pdf_bytes : list byte)
  : result Document := Ok doc.

Definition refuse (pdf_bytes : list byte) : result Document :=
  Raise (Exception (lit "no objects found")).

(** ** Further notions *)

(** A string that is not empty and does not end with white space. *)
Definition ends_with_text (s : str) : Prop := begins_with_text (rev s).

(** A span that carries the bold or the italic flag. *)
Definition styled (span : Span) : bool :=
  truthy (is_bold span) || truthy (is_italic span).

(** What a block appends to the page's output: nothing, or one string. *)
Definition block_output (block : Block) : list str :=
  if (type block =? 0)%Z then
    match render_block_text (block_lines block) with
    | Some s => [s]
    | None => []
    end
  else [].

(** A text block with at least one surviving line. *)
Definition contributes (block : Block) : bool :=
  (type block =? 0)%Z
  && match block_lines block with
     | [] => false
     | _ :: _ => true
     end.

(** The exception, if any, that the conversion meets on a page: loading the
    page, then reading its text, then, when images are requested, listing
    its images. *)
Definition page_failure (include_images : bool) (r : result Page)
  : option exn :=
  match r with
  | Raise e => Some e
  | Ok pg =>
      match get_text_blocks pg with
      | Raise e => Some e
      | Ok _ =>
          if include_images then
            match get_images pg with
            | Raise e => Some e
            | Ok _ => None
            end
          else None
      end
  end.

(** The failure of the first page, in page order, that has one. *)
Fixpoint first_failure (include_images : bool) (ps : list (result Page))
  : option exn :=
  match ps with
  | [] => None
  | r :: rest =>
      match page_failure include_images r with
      | Some e => Some e
      | None => first_failure include_images rest
      end
  end.

(** The characters of a base64 payload: letters, digits, [+], [/] and the
    padding [=]. *)
Definition is_base64_char (c : char) : bool :=
  ((65 <=? c) && (c <=? 90) || (97 <=? c) && (c <=? 122)
   || (48 <=? c) && (c <=? 57) || (c =? 43) || (c =? 47) || (c =? 61))%N.

(** The position of a character in the base64 alphabet ([0] for a character
    that is not in it). *)
Fixpoint index_in (c : char) (alphabet : str) : N :=
  match alphabet with
  | [] => 0
  | a :: rest => if (a =? c)%N then 0%N else N.succ (index_in c rest)
  end.

Definition b64_index (c : char) : N :=
  let i := index_in c b64_alphabet in
  if (i <? 64)%N then i else 0%N.

Definition byte_of (n : N) : byte :=
  match Byte.of_N n with
  | Some b => b
  | None => x00
  end.

(** Reading a payload back: each group of four characters gives three
    bytes, or one or two for a final padded group. *)
Fixpoint b64decode (s : str) : option (list byte) :=
  match s with
  | [] => Some []
  | c1 :: c2 :: c3 :: c4 :: rest =>
      let n := (b64_index c1 * 262144 + b64_index c2 * 4096
                + b64_index c3 * 64 + b64_index c4)%N in
      if (c3 =? 61)%N then
        match rest with
        | [] => Some [byte_of (n / 65536)]
        | _ :: _ => None
        end
      else if (c4 =? 61)%N then
        match rest with
        | [] => Some [byte_of (n / 65536); byte_of ((n / 256) mod 256)]
        | _ :: _ => None
        end
      else
        match b64decode rest with
        | Some bytes =>
            Some (byte_of (n / 65536) :: byte_of ((n / 256) mod 256)
                    :: byte_of (n mod 256) :: bytes)
        | None => None
        end
  | _ => None
  end.

(** ** The [/convert] endpoint *)

(** [s.endswith(suffix)]. *)
Definition ends_with (suffix s : str) : bool :=
  starts_with (rev suffix) (rev s).

(** The uploaded file: its [filename], which the framework may leave unset,
    and the bytes that [await file.read()] yields. *)
Record UploadFile := mkUploadFile {
  filename : option str;
  read : list byte
}.

(** The dictionary returned by [convert_pdf]. *)
Record Response := mkResponse {
  response_filename : str;
  response_markdown : str;
  response_images : list ImageDict
}.

Section Endpoint.

(** [str.lower] and [fitz.open]. *)
Variable lower : str -> str.
Variable fitz_open : list byte -> result Document.

(** Lines 221-238. *)
Definition convert_pdf (file : UploadFile)
    (include_images embed_images : bool) (closes : nat)
  : result Response * nat :=
  match filename file with
  | None =>
      (Raise (Exception
                (lit "'NoneType' object has no attribute 'lower'")),
       closes)
  | Some name =>
      if negb (ends_with (lit ".pdf") (lower name)) then
        (Raise (HTTPException 400 (lit "Uploaded file must be a PDF")),
         closes)
      else
        let pdf_content := read file in
        match convert_pdf_to_markdown fitz_open pdf_content include_images
                                      embed_images closes with
        | (Ok result, closes) =>
            (Ok {| response_filename := name;
                   response_markdown := markdown result;
                   response_images := get (images result) [] |},
             closes)
        | (Raise e, closes) => (Raise e, closes)
        end
  end.

End Endpoint.

(** [str.lower] on text without capital letters outside [A]-[Z]. *)
Definition ascii_lower (s : str) : str :=
  map (fun c => if ((65 <=? c) && (c <=? 90))%N then (c + 32)%N else c) s.

(** * Properties *)

(** ** Strings and lists *)

Lemma fold_left_snoc {A B : Type} (f : A -> list B) (items : list A)
    (init : list B) :
  fold_left (fun acc x => acc ++ f x) items init = init ++ flat_map f items.
Proof.
  revert init.
  induction items as [|x items IH]; intros init; simpl.
  - now rewrite app_nil_r.
  - now rewrite IH, app_assoc.
Qed.

Lemma fold_left_ext {A B : Type} (f g : A -> B -> A) (items : list B) (init : A) :
  (forall a b, f a b = g a b) ->
  fold_left f items init = fold_left g items init.
Proof.
  intros Hfg. revert init.
  induction items as [|x items IH]; intros init; simpl; [reflexivity|].
  now rewrite Hfg, IH.
Qed.

Lemma Qltb_lt (a b : Q) : Qltb a b = true <-> a < b.
Proof.
  unfold Qltb. rewrite negb_true_iff.
  split.
  - intros H. apply Qnot_le_lt. intros Hle.
    apply Qle_bool_iff in Hle. congruence.
  - intros H. destruct (Qle_bool b a) eqn:E; [|reflexivity].
    apply Qle_bool_iff in E. exfalso. exact (Qlt_not_le _ _ H E).
Qed.

Lemma Qltb_ge (a b : Q) : Qltb a b = false <-> b <= a.
Proof.
  unfold Qltb. rewrite negb_false_iff. apply Qle_bool_iff.
Qed.

Lemma land_pow2 (f n : Z) :
  (0 <= n)%Z ->
  Z.land f (2 ^ n) = if Z.testbit f n then (2 ^ n)%Z else 0%Z.
Proof.
  intros Hn. apply Z.bits_inj'. intros m Hm.
  rewrite Z.land_spec, Z.pow2_bits_eqb by assumption.
  destruct (Z.eqb_spec n m) as [->|Hne].
  - destruct (Z.testbit f m) eqn:E; simpl.
    + now rewrite Z.pow2_bits_true.
    + now rewrite Z.bits_0.
  - rewrite andb_false_r.
    destruct (Z.testbit f n).
    + rewrite Z.pow2_bits_false; auto.
    + now rewrite Z.bits_0.
Qed.

Lemma truthy_land_pow2 (f n : Z) :
  (0 <= n)%Z -> truthy (Z.land f (2 ^ n)) = Z.testbit f n.
Proof.
  intros Hn. rewrite land_pow2 by assumption. unfold truthy.
  destruct (Z.testbit f n); [|reflexivity].
  apply negb_true_iff, Z.eqb_neq.
  pose proof (Z.pow_pos_nonneg 2 n). lia.
Qed.

Lemma is_bold_bit (span : Span) :
  truthy (is_bold span) = Z.testbit (get (flags span) 0%Z) 4.
Proof. exact (truthy_land_pow2 _ 4 ltac:(lia)). Qed.

Lemma is_italic_bit (span : Span) :
  truthy (is_italic span) = Z.testbit (get (flags span) 0%Z) 1.
Proof. exact (truthy_land_pow2 _ 1 ltac:(lia)). Qed.

(** ** The span formatter *)

(** C3: a span whose flag word has bit 4 (bold) and bit 1 (italic) set is
    wrapped in three asterisks on both sides, bold only in two, italic only
    in one, and a span with neither bit is returned unchanged; in every case
    the span's text appears verbatim, no character of it being escaped. *)
Theorem format_span_emphasis (span : Span) :
  format_span span =
    let t := get (text span) [] in
    match Z.testbit (get (flags span) 0%Z) 4,
          Z.testbit (get (flags span) 0%Z) 1 with
    | true, true => lit "***" ++ t ++ lit "***"
    | true, false => lit "**" ++ t ++ lit "**"
    | false, true => lit "*" ++ t ++ lit "*"
    | false, false => t
    end.
Proof.
  unfold format_span.
  rewrite is_bold_bit, is_italic_bit.
  destruct (Z.testbit _ 4), (Z.testbit _ 1); reflexivity.
Qed.

(** ** Double precision *)

Lemma pow2_pos (k : Z) : 0 < 2 ^ k.
Proof. now apply Qpower_0_lt. Qed.

Lemma pow2_le (a b : Z) : (a <= b)%Z -> 2 ^ a <= 2 ^ b.
Proof. intros H. apply Qpower_le_compat_l; [assumption|discriminate]. Qed.

Lemma pow2_lt (a b : Z) : (a < b)%Z -> 2 ^ a < 2 ^ b.
Proof. intros H. apply Qpower_lt_compat_l; [assumption|reflexivity]. Qed.

Lemma pow2_lt_inv (a b : Z) : 2 ^ a < 2 ^ b -> (a < b)%Z.
Proof. intros H. apply (Qpower_lt_compat_l_inv 2); [assumption|reflexivity]. Qed.

Lemma pow2_plus (a b : Z) : 2 ^ (a + b) == 2 ^ a * 2 ^ b.
Proof. apply Qpower_plus. discriminate. Qed.

Lemma pow2_Z (k : Z) : (0 <= k)%Z -> 2 ^ k == inject_Z (2 ^ k).
Proof. intros H. now rewrite Zpower_Qpower. Qed.

Lemma Qmake_inject (n : Z) (d : positive) :
  (n # d) * inject_Z (Z.pos d) == inject_Z n.
Proof.
  unfold Qeq, Qmult, inject_Z. simpl. lia.
Qed.

Lemma log2_bounds (n : Z) :
  (0 < n)%Z ->
  2 ^ Z.log2 n <= inject_Z n /\ inject_Z n < 2 ^ (Z.log2 n + 1).
Proof.
  intros Hn. destruct (Z.log2_spec n Hn) as [Hlo Hhi].
  pose proof (Z.log2_nonneg n) as Hnn.
  rewrite !pow2_Z by lia. rewrite <- Zle_Qle, <- Zlt_Qlt.
  split; [assumption|]. now replace (Z.log2 n + 1)%Z with (Z.succ (Z.log2 n)) by lia.
Qed.

Lemma floor_log2_spec (q : Q) :
  0 < q -> 2 ^ floor_log2 q <= q /\ q < 2 ^ (floor_log2 q + 1).
Proof.
  intros Hq. destruct q as [n d].
  assert (Hn : (0 < n)%Z) by (unfold Qlt in Hq; simpl in Hq; lia).
  destruct (log2_bounds n Hn) as [Hnlo Hnhi].
  destruct (log2_bounds (Z.pos d) eq_refl) as [Hdlo Hdhi].
  pose proof (Qmake_inject n d) as Hnd.
  assert (Hdpos : 0 < inject_Z (Z.pos d)) by reflexivity.
  unfold floor_log2. cbn [Qnum Qden].
  set (ln := Z.log2 n) in *. set (ld := Z.log2 (Z.pos d)) in *.
  set (D := inject_Z (Z.pos d)) in *. set (N := inject_Z n) in *.
  set (x := n # d) in *.
  destruct (Qle_bool (2 ^ (ln - ld)) x) eqn:E.
  - apply Qle_bool_iff in E. split; [assumption|].
    replace (ln - ld + 1)%Z with ((ln + 1) + - ld)%Z by lia.
    rewrite pow2_plus, Qpower_opp.
    apply Qlt_shift_div_l; [apply pow2_pos|].
    pose proof (pow2_pos ld). pose proof (pow2_pos (ln + 1)).
    assert (0 < x) by assumption.
    nra.
  - assert (Hlt : x < 2 ^ (ln - ld)).
    { apply Qnot_le_lt. intros H. apply Qle_bool_iff in H. congruence. }
    split.
    + replace (ln - ld - 1)%Z with (ln + - (ld + 1))%Z by lia.
      rewrite pow2_plus, Qpower_opp.
      apply Qle_shift_div_r; [apply pow2_pos|].
      pose proof (pow2_pos (ld + 1)). pose proof (pow2_pos ln).
      assert (0 < x) by assumption.
      nra.
    + now replace (ln - ld - 1 + 1)%Z with (ln - ld)%Z by lia.
Qed.

Lemma floor_log2_unique (q : Q) (e : Z) :
  2 ^ e <= q -> q < 2 ^ (e + 1) -> floor_log2 q = e.
Proof.
  intros Hlo Hhi.
  assert (Hq : 0 < q) by (eapply Qlt_le_trans; [apply (pow2_pos e)|assumption]).
  destruct (floor_log2_spec q Hq) as [Hlo' Hhi'].
  assert (floor_log2 q < e + 1)%Z
    by (apply pow2_lt_inv; eapply Qle_lt_trans; eassumption).
  assert (e < floor_log2 q + 1)%Z
    by (apply pow2_lt_inv; eapply Qle_lt_trans; eassumption).
  lia.
Qed.

Lemma floor_log2_mono (a b : Q) :
  0 < a -> a <= b -> (floor_log2 a <= floor_log2 b)%Z.
Proof.
  intros Ha Hab.
  assert (Hb : 0 < b) by (eapply Qlt_le_trans; eassumption).
  destruct (floor_log2_spec a Ha) as [Hlo _].
  destruct (floor_log2_spec b Hb) as [_ Hhi].
  assert (floor_log2 a < floor_log2 b + 1)%Z; [|lia].
  apply pow2_lt_inv.
  eapply Qle_lt_trans; [|eassumption]. eapply Qle_trans; eassumption.
Qed.

(** *** Rounding to an integer *)

Lemma round_half_even_cases (q : Q) :
  let f := Qfloor q in
  let r := q - inject_Z f in
  (round_half_even q = f /\ (r < 1 # 2 \/ (r == 1 # 2 /\ Z.even f = true))) \/
  (round_half_even q = (f + 1)%Z /\
   (1 # 2 < r \/ (r == 1 # 2 /\ Z.even f = false))).
Proof.
  intros f r. unfold round_half_even. fold f. fold r.
  destruct (Qcompare r (1 # 2)) eqn:E.
  - apply Qeq_alt in E. destruct (Z.even f) eqn:Ev; [left|right]; auto.
  - apply Qlt_alt in E. left; auto.
  - apply Qgt_alt in E. right; auto.
Qed.

Lemma floor_bounds (q : Q) :
  inject_Z (Qfloor q) <= q /\ q < inject_Z (Qfloor q) + 1.
Proof.
  split; [apply Qfloor_le|].
  pose proof (Qlt_floor q) as H. rewrite inject_Z_plus in H. exact H.
Qed.

Lemma round_half_even_lower (z : Z) (q : Q) :
  inject_Z z <= q -> (z <= round_half_even q)%Z.
Proof.
  intros H.
  assert (Hf : (z <= Qfloor q)%Z).
  { rewrite <- (Qfloor_Z z). now apply Qfloor_resp_le. }
  destruct (round_half_even_cases q) as [[-> _]|[-> _]]; lia.
Qed.

Lemma round_half_even_upper (z : Z) (q : Q) :
  q <= inject_Z z -> (round_half_even q <= z)%Z.
Proof.
  intros H. destruct (floor_bounds q) as [Hlo Hhi].
  destruct (round_half_even_cases q) as [[-> _]|[-> Hr]].
  - rewrite Zle_Qle. lra.
  - assert (Hlt : inject_Z (Qfloor q) < inject_Z z).
    { destruct Hr as [Hr|[Hr _]]; lra. }
    rewrite <- Zlt_Qlt in Hlt. lia.
Qed.

Lemma round_half_even_exact (z : Z) (q : Q) :
  q == inject_Z z -> round_half_even q = z.
Proof.
  intros H. apply Z.le_antisymm.
  - apply round_half_even_upper. rewrite H. apply Qle_refl.
  - apply round_half_even_lower. rewrite H. apply Qle_refl.
Qed.

Lemma round_half_even_mono (x y : Q) :
  x <= y -> (round_half_even x <= round_half_even y)%Z.
Proof.
  intros H.
  assert (Hf : (Qfloor x <= Qfloor y)%Z) by now apply Qfloor_resp_le.
  destruct (floor_bounds x) as [Hxlo Hxhi].
  destruct (floor_bounds y) as [Hylo Hyhi].
  destruct (round_half_even_cases x) as [[-> _]|[-> Hx]];
    destruct (round_half_even_cases y) as [[-> Hy]|[-> _]]; try lia.
  destruct (Z.eq_dec (Qfloor x) (Qfloor y)) as [E|E]; [|lia].
  exfalso. rewrite E in *.
  destruct Hx as [Hx|[Hx Hxe]], Hy as [Hy|[Hy Hye]];
    try lra; congruence.
Qed.

(** *** The grid of doubles *)

Lemma to_grid_nonneg (q : Q) : 0 < q -> 0 <= to_grid q.
Proof.
  intros Hq. unfold to_grid, quantum.
  pose proof (pow2_pos (quantum_exponent q)) as Hp.
  assert (Hr : (0 <= round_half_even (q / 2 ^ quantum_exponent q))%Z).
  { apply round_half_even_lower. apply Qle_shift_div_l; [assumption|].
    change (inject_Z 0) with 0. lra. }
  rewrite Zle_Qle in Hr. change (inject_Z 0) with 0 in Hr. nra.
Qed.

(** A power of two at or above the quantum bounds the grid point from
    either side as it bounds [q]. *)
Lemma to_grid_upper (q : Q) (e : Z) :
  0 < q -> (quantum_exponent q <= e)%Z -> q <= 2 ^ e -> to_grid q <= 2 ^ e.
Proof.
  intros Hq He Hle. unfold to_grid, quantum.
  set (k := quantum_exponent q) in *.
  pose proof (pow2_pos k) as Hp.
  assert (Hsplit : 2 ^ e == inject_Z (2 ^ (e - k)) * 2 ^ k).
  { rewrite <- pow2_Z by lia. rewrite <- pow2_plus.
    now replace (e - k + k)%Z with e by lia. }
  assert (Hr : (round_half_even (q / 2 ^ k) <= 2 ^ (e - k))%Z).
  { apply round_half_even_upper. apply Qle_shift_div_r; [assumption|].
    now rewrite <- Hsplit. }
  rewrite Hsplit. rewrite Zle_Qle in Hr.
  apply Qmult_le_compat_r; [assumption|now apply Qlt_le_weak].
Qed.

Lemma to_grid_lower (q : Q) (e : Z) :
  0 < q -> (quantum_exponent q <= e)%Z -> 2 ^ e <= q -> 2 ^ e <= to_grid q.
Proof.
  intros Hq He Hle. unfold to_grid, quantum.
  set (k := quantum_exponent q) in *.
  pose proof (pow2_pos k) as Hp.
  assert (Hsplit : 2 ^ e == inject_Z (2 ^ (e - k)) * 2 ^ k).
  { rewrite <- pow2_Z by lia. rewrite <- pow2_plus.
    now replace (e - k + k)%Z with e by lia. }
  assert (Hr : (2 ^ (e - k) <= round_half_even (q / 2 ^ k))%Z).
  { apply round_half_even_lower. apply Qle_shift_div_l; [assumption|].
    now rewrite <- Hsplit. }
  rewrite Hsplit. rewrite Zle_Qle in Hr.
  apply Qmult_le_compat_r; [assumption|now apply Qlt_le_weak].
Qed.

Lemma quantum_exponent_mono (a b : Q) :
  0 < a -> a <= b -> (quantum_exponent a <= quantum_exponent b)%Z.
Proof.
  intros Ha Hab. pose proof (floor_log2_mono a b Ha Hab). unfold quantum_exponent. lia.
Qed.

Lemma to_grid_mono (a b : Q) : 0 < a -> a <= b -> to_grid a <= to_grid b.
Proof.
  intros Ha Hab.
  assert (Hb : 0 < b) by (eapply Qlt_le_trans; eassumption).
  pose proof (quantum_exponent_mono a b Ha Hab) as Hk.
  destruct (Z.eq_dec (quantum_exponent a) (quantum_exponent b)) as [E|E].
  - unfold to_grid, quantum. rewrite E.
    pose proof (pow2_pos (quantum_exponent b)) as Hp.
    apply Qmult_le_compat_r; [|now apply Qlt_le_weak].
    rewrite <- Zle_Qle. apply round_half_even_mono.
    apply Qle_shift_div_l; [assumption|].
    unfold Qdiv. rewrite <- Qmult_assoc, (Qmult_comm (/ _)), Qmult_inv_r, Qmult_1_r
      by (intros H0; rewrite H0 in Hp; discriminate).
    exact Hab.
  - (* different quanta: the binade of [b] starts between them *)
    assert (Hlt : (quantum_exponent a < quantum_exponent b)%Z) by lia.
    assert (Hfl : (floor_log2 a < floor_log2 b)%Z) by (unfold quantum_exponent in *; lia).
    assert (Hkb : quantum_exponent b = (floor_log2 b - 52)%Z) by (unfold quantum_exponent in *; lia).
    destruct (floor_log2_spec a Ha) as [_ Hahi].
    destruct (floor_log2_spec b Hb) as [Hblo _].
    apply Qle_trans with (2 ^ floor_log2 b).
    + apply to_grid_upper; [assumption|lia|].
      apply Qlt_le_weak. eapply Qlt_le_trans; [exact Hahi|].
      apply pow2_le. lia.
    + apply to_grid_lower; [assumption|lia|assumption].
Qed.

Lemma round_positive_eq (q : Q) :
  round_positive q == (if Qle_bool (2 ^ 1024) (to_grid q) then 2 ^ 1024 else to_grid q).
Proof.
  unfold round_positive. cbv zeta.
  assert (H : Qle_bool (2 ^ 1024) (Qred (to_grid q)) = Qle_bool (2 ^ 1024) (to_grid q)).
  { apply eq_true_iff_eq. rewrite !Qle_bool_iff. now rewrite Qred_correct. }
  rewrite H. destruct (Qle_bool (2 ^ 1024) (to_grid q)); [reflexivity|apply Qred_correct].
Qed.

Lemma round_positive_nonneg (q : Q) : 0 < q -> 0 <= round_positive q.
Proof.
  intros Hq. rewrite round_positive_eq.
  destruct (Qle_bool _ _); [discriminate|now apply to_grid_nonneg].
Qed.

Lemma round_positive_mono (a b : Q) :
  0 < a -> a <= b -> round_positive a <= round_positive b.
Proof.
  intros Ha Hab. pose proof (to_grid_mono a b Ha Hab) as H.
  rewrite !round_positive_eq.
  destruct (Qle_bool (2 ^ 1024) (to_grid a)) eqn:Ea;
    destruct (Qle_bool (2 ^ 1024) (to_grid b)) eqn:Eb.
  - apply Qle_refl.
  - apply Qle_bool_iff in Ea. eapply Qle_trans; eassumption.
  - apply Qlt_le_weak, Qnot_le_lt. intros Hc.
    apply Qle_bool_iff in Hc. congruence.
  - exact H.
Qed.

(** *** Rounding to a double *)

Lemma fl_Qeq (a b : Q) : a == b -> fl a = fl b.
Proof. intros H. unfold fl. now rewrite (Qred_complete a b H). Qed.

Lemma Qnum_sign (q : Q) :
  match Qnum q with
  | Z0 => q == 0
  | Zpos _ => 0 < q
  | Zneg _ => q < 0
  end.
Proof.
  destruct q as [[|n|n] d]; unfold Qeq, Qlt; simpl; lia.
Qed.

Lemma fl_zero (q : Q) : q == 0 -> fl q = 0.
Proof. intros H. rewrite (fl_Qeq q 0 H). reflexivity. Qed.

Lemma fl_positive (q : Q) : 0 < q -> fl q = round_positive (Qred q).
Proof.
  intros H. unfold fl. cbv zeta.
  pose proof (Qnum_sign (Qred q)) as Hs. pose proof (Qred_correct q) as Hr.
  destruct (Qnum (Qred q)); [|reflexivity|]; lra.
Qed.

Lemma fl_negative (q : Q) : q < 0 -> fl q = - round_positive (- Qred q).
Proof.
  intros H. unfold fl. cbv zeta.
  pose proof (Qnum_sign (Qred q)) as Hs. pose proof (Qred_correct q) as Hr.
  destruct (Qnum (Qred q)); [| |reflexivity]; lra.
Qed.

Lemma fl_nonneg (q : Q) : 0 <= q -> 0 <= fl q.
Proof.
  intros H. destruct (Qlt_le_dec 0 q) as [Hpos|Hle].
  - rewrite (fl_positive q Hpos). apply round_positive_nonneg.
    now rewrite Qred_correct.
  - rewrite (fl_zero q); [apply Qle_refl|lra].
Qed.

Lemma fl_nonpos (q : Q) : q <= 0 -> fl q <= 0.
Proof.
  intros H. destruct (Qlt_le_dec q 0) as [Hneg|Hle].
  - rewrite (fl_negative q Hneg).
    assert (0 <= round_positive (- Qred q)); [|lra].
    apply round_positive_nonneg. rewrite Qred_correct. lra.
  - rewrite (fl_zero q); [apply Qle_refl|lra].
Qed.

(** Rounding keeps the order. *)
Lemma fl_mono (a b : Q) : a <= b -> fl a <= fl b.
Proof.
  intros Hab.
  destruct (Qlt_le_dec 0 a) as [Ha|Ha].
  - assert (Hb : 0 < b) by lra.
    rewrite (fl_positive a Ha), (fl_positive b Hb).
    apply round_positive_mono; rewrite !Qred_correct; assumption.
  - destruct (Qlt_le_dec b 0) as [Hb|Hb].
    + assert (Ha' : a < 0) by lra.
      rewrite (fl_negative a Ha'), (fl_negative b Hb).
      apply Qopp_le_compat.
      apply round_positive_mono; rewrite !Qred_correct; lra.
    + apply Qle_trans with 0; [now apply fl_nonpos|now apply fl_nonneg].
Qed.

(** Integers of at most 53 bits are doubles. *)
Lemma to_grid_small_integer (q : Q) (z : Z) :
  (0 < z < 2 ^ 53)%Z -> q == inject_Z z -> to_grid q == inject_Z z.
Proof.
  intros Hz Hq.
  destruct (log2_bounds z (proj1 Hz)) as [Hlo Hhi].
  assert (He : floor_log2 q = Z.log2 z).
  { apply floor_log2_unique; now rewrite Hq. }
  assert (Hsmall : (Z.log2 z < 53)%Z) by (apply Z.log2_lt_pow2; lia).
  pose proof (Z.log2_nonneg z) as Hnn.
  unfold to_grid, quantum. unfold quantum_exponent. rewrite He.
  replace (Z.max (Z.log2 z - 52) (-1074)) with (- (52 - Z.log2 z))%Z by lia.
  set (j := (52 - Z.log2 z)%Z). assert (Hj : (0 <= j)%Z) by (unfold j; lia).
  pose proof (pow2_pos j) as Hp.
  assert (Hdiv : q / 2 ^ (- j) == inject_Z (z * 2 ^ j)).
  { rewrite Qpower_opp, inject_Z_mult, <- pow2_Z by assumption.
    rewrite Hq. field. intros H0. rewrite H0 in Hp. discriminate. }
  rewrite (round_half_even_exact _ _ Hdiv).
  rewrite Qpower_opp, inject_Z_mult, <- pow2_Z by assumption.
  field. intros H0. rewrite H0 in Hp. discriminate.
Qed.

Lemma fl_small_integer (z : Z) :
  (0 <= z < 2 ^ 53)%Z -> fl (inject_Z z) == inject_Z z.
Proof.
  intros Hz. destruct (Z.eq_dec z 0) as [->|Hne]; [reflexivity|].
  assert (Hpos : 0 < inject_Z z).
  { change 0 with (inject_Z 0). rewrite <- Zlt_Qlt. lia. }
  rewrite (fl_positive _ Hpos), round_positive_eq.
  assert (Hg : to_grid (Qred (inject_Z z)) == inject_Z z)
    by (apply to_grid_small_integer; [lia|apply Qred_correct]).
  destruct (Qle_bool _ _) eqn:E; [|exact Hg].
  apply Qle_bool_iff in E. rewrite Hg in E.
  assert (Hbig : inject_Z z < 2 ^ 1024).
  { apply Qlt_trans with (2 ^ 53); [|now apply pow2_lt].
    rewrite pow2_Z by lia. rewrite <- Zlt_Qlt. lia. }
  lra.
Qed.

Lemma round_half_even_near (q : Q) :
  - (1 # 2) <= inject_Z (round_half_even q) - q <= 1 # 2.
Proof.
  destruct (floor_bounds q) as [Hlo Hhi].
  destruct (round_half_even_cases q) as [[-> Hr]|[-> Hr]].
  - destruct Hr as [Hr|[Hr _]]; lra.
  - rewrite inject_Z_plus. change (inject_Z 1) with 1.
    destruct Hr as [Hr|[Hr _]]; lra.
Qed.

(** The grid point is within half a quantum of [q]. *)
Lemma to_grid_near (q : Q) :
  - (quantum q / 2) <= to_grid q - q <= quantum q / 2.
Proof.
  unfold to_grid, quantum.
  pose proof (pow2_pos (quantum_exponent q)) as Hp.
  set (u := 2 ^ quantum_exponent q) in *.
  pose proof (round_half_even_near (q / u)) as Hn.
  set (m := inject_Z (round_half_even (q / u))) in *.
  assert (Hq : q == (q / u) * u) by (field; lra).
  set (x := q / u) in *. clearbody x m u.
  assert (H1 : (m - x) * u <= (1 # 2) * u)
    by (apply Qmult_le_compat_r; lra).
  assert (H2 : - (1 # 2) * u <= (m - x) * u)
    by (apply Qmult_le_compat_r; lra).
  setoid_replace (u / 2) with ((1 # 2) * u) by field.
  split; lra.
Qed.









(** ** Lines *)

Lemma py_max_l (a b : Q) : a <= py_max a b.
Proof.
  unfold py_max. destruct (Qltb a b) eqn:E.
  - apply Qltb_lt in E. now apply Qlt_le_weak.
  - apply Qle_refl.
Qed.

Lemma py_max_r (a b : Q) : b <= py_max a b.
Proof.
  unfold py_max. destruct (Qltb a b) eqn:E.
  - apply Qle_refl.
  - now apply Qltb_ge in E.
Qed.

Lemma py_max_cases (a b : Q) : py_max a b = a \/ py_max a b = b.
Proof. unfold py_max. destruct (Qltb a b); auto. Qed.

Lemma fold_py_max_init (qs : list Q) (m : Q) : m <= fold_left py_max qs m.
Proof.
  revert m. induction qs as [|q qs IH]; intros m; simpl.
  - apply Qle_refl.
  - eapply Qle_trans; [apply (py_max_l m q)|apply IH].
Qed.

Lemma fold_py_max_upper (qs : list Q) (m q : Q) :
  In q qs -> q <= fold_left py_max qs m.
Proof.
  revert m. induction qs as [|q' qs IH]; intros m Hin; simpl in *.
  - contradiction.
  - destruct Hin as [->|Hin].
    + eapply Qle_trans; [apply (py_max_r m q)|apply fold_py_max_init].
    + now apply IH.
Qed.

Lemma fold_py_max_attained (qs : list Q) (m : Q) :
  fold_left py_max qs m = m \/ In (fold_left py_max qs m) qs.
Proof.
  revert m. induction qs as [|q qs IH]; intros m; simpl.
  - now left.
  - destruct (IH (py_max m q)) as [H|H].
    + rewrite H. destruct (py_max_cases m q) as [E|E]; rewrite E; auto.
    + auto.
Qed.

Lemma fold_span_step (l : list Span) (line_text0 : str) (m : Q) :
  fold_left span_step l (line_text0, m) =
  (line_text0 ++ concat (map format_span l),
   fold_left py_max (map (fun span => get (size span) 12) l) m).
Proof.
  revert line_text0 m.
  induction l as [|span l IH]; intros t m; simpl.
  - now rewrite app_nil_r.
  - rewrite IH. now rewrite <- app_assoc.
Qed.

Lemma scan_line_eq (line : Line) :
  scan_line line = (line_text line, fold_left py_max (span_sizes line) 0).
Proof. unfold scan_line. now rewrite fold_span_step. Qed.

Lemma scan_line_max0 (line : Line) :
  is_max_of (snd (scan_line line)) (0 :: span_sizes line).
Proof.
  rewrite scan_line_eq. simpl snd. split.
  - destruct (fold_py_max_attained (span_sizes line) 0) as [H|H].
    + exists 0. split; [now left|]. now rewrite H.
    + exists (fold_left py_max (span_sizes line) 0).
      split; [now right|reflexivity].
  - intros q [<-|Hin].
    + apply fold_py_max_init.
    + now apply fold_py_max_upper.
Qed.


(** ** Blocks *)

(** What a line adds to [block_text]. *)
Lemma line_step_snoc (block_text : list (str * Q)) (line : Line) :
  line_step block_text line =
  block_text ++ (if survives line
                 then [(strip (line_text line), snd (scan_line line))]
                 else []).
Proof.
  unfold line_step, survives. rewrite scan_line_eq. simpl snd.
  destruct (strip (line_text line)); [now rewrite app_nil_r|reflexivity].
Qed.

Lemma flat_map_filter_map {A B : Type} (keep : A -> bool) (f : A -> B)
    (items : list A) :
  flat_map (fun x => if keep x then [f x] else []) items =
  map f (filter keep items).
Proof.
  induction items as [|x items IH]; simpl; [reflexivity|].
  destruct (keep x); simpl; now rewrite IH.
Qed.

Lemma block_lines_eq (block : Block) :
  block_lines block =
  map (fun line => (strip (line_text line), snd (scan_line line)))
      (filter survives (get (lines block) [])).
Proof.
  unfold block_lines.
  rewrite (fold_left_ext _ _ _ _ line_step_snoc).
  rewrite (fold_left_snoc
             (fun line => if survives line
                          then [(strip (line_text line), snd (scan_line line))]
                          else [])).
  simpl. apply flat_map_filter_map.
Qed.

Lemma avg_font_size_mean (block : Block) :
  avg_font_size (block_lines block) = float_mean (kept_sizes block).
Proof.
  unfold avg_font_size, sum_sizes, float_mean, kept_sizes.
  rewrite block_lines_eq, !map_map, !length_map. reflexivity.
Qed.

Lemma block_step_text (markdown_content : list str) (block : Block) :
  type block = 0%Z ->
  block_step markdown_content block =
  match render_block_text (block_lines block) with
  | Some s => markdown_content ++ [s]
  | None => markdown_content
  end.
Proof. intros H. unfold block_step. now rewrite H. Qed.




Lemma render_block_text_cases (block_text : list (str * Q)) :
  match block_text with
  | [] => render_block_text block_text = None
  | _ :: _ =>
      exists prefix,
        In prefix [lit "# "; lit "## "; lit "### "; []] /\
        render_block_text block_text = Some (prefix ++ combined_text block_text)
  end.
Proof.
  destruct block_text as [|entry rest]; [reflexivity|].
  unfold render_block_text.
  destruct (Qltb 18 _); [|destruct (Qltb 14 _); [|destruct (Qltb 12 _)]].
  - exists (lit "# "). split; [|reflexivity]. simpl; auto.
  - exists (lit "## "). split; [|reflexivity]. simpl; auto.
  - exists (lit "### "). split; [|reflexivity]. simpl; auto.
  - exists []. split; [|reflexivity]. simpl; auto.
Qed.


(** ** The image extractor *)

Lemma enumerate_cons {A : Type} (start : nat) (x : A) (items : list A) :
  enumerate start (x :: items) = (start, x) :: enumerate (S start) items.
Proof. reflexivity. Qed.

Lemma in_enumerate {A : Type} (items : list A) (start i : nat) (x : A) :
  In (i, x) (enumerate start items) <->
  (start <= i)%nat /\ nth_error items (i - start) = Some x.
Proof.
  revert start. induction items as [|y items IH]; intros start.
  - simpl. split; [contradiction|].
    intros [_ H]. destruct (i - start)%nat; discriminate.
  - rewrite enumerate_cons. simpl. rewrite IH. split.
    + intros [H|[Hle Hnth]].
      * inversion H; subst. split; [lia|].
        now replace (i - i)%nat with 0%nat by lia.
      * split; [lia|].
        replace (i - start)%nat with (S (i - S start)) by lia. exact Hnth.
    + intros [Hle Hnth].
      destruct (Nat.eq_dec start i) as [->|Hne].
      * left. replace (i - i)%nat with 0%nat in Hnth by lia.
        simpl in Hnth. congruence.
      * right. split; [lia|].
        replace (i - start)%nat with (S (i - S start)) in Hnth by lia.
        exact Hnth.
Qed.

Lemma fold_image_step (parent : Document) (page_number : nat)
    (image_list : list ImgInfo) (img_index : nat) (images0 : list ImageDict) :
  fold_left (image_step parent page_number) image_list (img_index, images0) =
  ((img_index + length image_list)%nat,
   images0 ++ flat_map (image_entry parent page_number)
                       (enumerate img_index image_list)).
Proof.
  revert img_index images0.
  induction image_list as [|info rest IH]; intros i acc.
  - simpl. now rewrite Nat.add_0_r, app_nil_r.
  - rewrite enumerate_cons. cbn [fold_left flat_map length].
    unfold image_step at 2. rewrite IH.
    f_equal; [lia|].
    unfold image_entry at 2. cbn [fst snd].
    destruct (extract_image parent (xref info)); simpl.
    + now rewrite <- app_assoc.
    + reflexivity.
Qed.

Lemma extract_images_eq (parent : Document) (pg : Page) (page_number : nat) :
  extract_images_as_base64 parent pg page_number =
  match get_images pg with
  | Ok image_list => Ok (image_entries parent page_number image_list)
  | Raise e => Raise e
  end.
Proof.
  unfold extract_images_as_base64, bind.
  destruct (get_images pg) as [image_list|e]; [|reflexivity].
  now rewrite fold_image_step.
Qed.

Lemma in_image_entries (parent : Document) (page_number start : nat)
    (image_list : list ImgInfo) (img : ImageDict) :
  In img (flat_map (image_entry parent page_number)
                   (enumerate start image_list)) <->
  exists i info base_image,
    (start <= i)%nat /\
    nth_error image_list (i - start) = Some info /\
    extract_image parent (xref info) = Ok base_image /\
    img = {| page := page_number; index := i;
             format := ext base_image;
             base64 := b64encode (image base_image) |}.
Proof.
  rewrite in_flat_map. split.
  - intros [[i info] [Hin Himg]].
    apply in_enumerate in Hin. destruct Hin as [Hle Hnth].
    unfold image_entry in Himg. cbn [fst snd] in Himg.
    destruct (extract_image parent (xref info)) as [b|e] eqn:E;
      [|contradiction].
    destruct Himg as [<-|[]].
    exists i, info, b. auto.
  - intros [i [info [b [Hle [Hnth [E Himg]]]]]].
    exists (i, info). split.
    + apply in_enumerate. auto.
    + unfold image_entry. cbn [fst snd]. rewrite E, Himg. now left.
Qed.

Lemma image_entries_sorted (parent : Document) (page_number : nat)
    (image_list : list ImgInfo) (start : nat) :
  StronglySorted lt
    (map index (flat_map (image_entry parent page_number)
                         (enumerate start image_list))).
Proof.
  revert start. induction image_list as [|info rest IH]; intros start.
  - constructor.
  - rewrite enumerate_cons. cbn [flat_map]. rewrite map_app.
    unfold image_entry at 1. cbn [fst snd].
    destruct (extract_image parent (xref info)) as [b|e]; simpl.
    + constructor; [apply IH|].
      apply Forall_forall. intros j Hj.
      apply in_map_iff in Hj. destruct Hj as [img [<- Himg]].
      apply in_image_entries in Himg.
      destruct Himg as [i [info' [b' [Hle [_ [_ ->]]]]]]. simpl. lia.
    + apply IH.
Qed.

Lemma image_entries_length (parent : Document) (page_number : nat)
    (image_list : list ImgInfo) (start : nat) :
  length (flat_map (image_entry parent page_number)
                   (enumerate start image_list)) =
  length (filter (extractable parent) image_list).
Proof.
  revert start. induction image_list as [|info rest IH]; intros start.
  - reflexivity.
  - rewrite enumerate_cons. cbn [flat_map filter]. rewrite length_app, IH.
    unfold image_entry, extractable. cbn [fst snd].
    destruct (extract_image parent (xref info)); reflexivity.
Qed.

(** C7: whatever the outcome of each [extract_image] call, the extractor
    returns a list and raises nothing.  The list holds exactly the entries of
    the images whose extraction succeeds, one for each, an image that fails
    being left out and those after it still extracted; the entries are in
    encounter order and carry the display page number, the 0-based position
    in the page's image list, the format string and the base64 payload. *)
Theorem image_failures_skipped (parent : Document) (pg : Page)
    (page_number : nat) (image_list : list ImgInfo) :
  get_images pg = Ok image_list ->
  exists page_images,
    extract_images_as_base64 parent pg page_number = Ok page_images /\
    (forall img,
        In img page_images <->
        exists i info base_image,
          nth_error image_list i = Some info /\
          extract_image parent (xref info) = Ok base_image /\
          img = {| page := page_number; index := i;
                   format := ext base_image;
                   base64 := b64encode (image base_image) |}) /\
    StronglySorted lt (map index page_images) /\
    length page_images = length (filter (extractable parent) image_list).
Proof.
  intros Hget. exists (image_entries parent page_number image_list).
  split; [|split; [|split]].
  - now rewrite extract_images_eq, Hget.
  - intros img. unfold image_entries. rewrite in_image_entries.
    split.
    + intros [i [info [b [_ [Hnth [E ->]]]]]].
      rewrite Nat.sub_0_r in Hnth. exists i, info, b. auto.
    + intros [i [info [b [Hnth [E Himg]]]]].
      exists i, info, b. rewrite Nat.sub_0_r. repeat split; auto. lia.
  - apply image_entries_sorted.
  - apply image_entries_length.
Qed.

(** ** The document assembler *)

Lemma fold_image_markdown (page_images : list ImageDict) (page_markdown : str) :
  fold_left (fun page_markdown img => page_markdown ++ image_markdown img)
            page_images page_markdown =
  page_markdown ++ concat (map image_markdown page_images).
Proof.
  rewrite (fold_left_snoc image_markdown). now rewrite flat_map_concat_map.
Qed.

Lemma image_branch_eq (doc : Document) (pg : Page) (page_number : nat)
    (include_images embed_images : bool) (page_markdown : str)
    (all_images : list ImageDict) :
  image_branch doc pg page_number include_images embed_images
               page_markdown all_images =
  if include_images then
    match get_images pg with
    | Ok image_list =>
        let page_images := image_entries doc (page_number + 1) image_list in
        Ok (page_markdown ++
            (if embed_images then concat (map image_markdown page_images)
             else []),
            all_images ++ (if embed_images then [] else page_images))
    | Raise e => Raise e
    end
  else Ok (page_markdown, all_images).
Proof.
  unfold image_branch. destruct include_images; [|reflexivity].
  rewrite extract_images_eq.
  destruct (get_images pg) as [image_list|e]; [|reflexivity].
  unfold bind. cbv zeta.
  destruct embed_images.
  - destruct (image_entries doc (page_number + 1) image_list) as [|img rest].
    + simpl. now rewrite !app_nil_r.
    + rewrite fold_image_markdown. now rewrite app_nil_r.
  - now rewrite app_nil_r.
Qed.

Lemma page_step_body (doc : Document) (include_images embed_images : bool)
    (acc : list str * list ImageDict) (page_number : nat) :
  page_step doc include_images embed_images acc page_number =
  page_body doc include_images embed_images acc page_number
    (nth page_number (pages doc)
         (Raise (Exception (lit "page not in document")))).
Proof. destruct acc as [markdown_pages all_images]. reflexivity. Qed.

Lemma page_body_readable (doc : Document) (include_images embed_images : bool)
    (markdown_pages : list str) (all_images : list ImageDict)
    (page_number : nat) (r : result Page) :
  readable include_images r = true ->
  page_body doc include_images embed_images (markdown_pages, all_images)
            page_number r =
  Ok (markdown_pages
        ++ (if (0 <? page_number)%nat then [page_separator page_number] else [])
        ++ [page_markdown_of doc include_images embed_images page_number r],
      all_images ++ (if include_images && negb embed_images
                     then images_of doc page_number r else [])).
Proof.
  unfold readable, page_body, page_markdown_of, text_of, images_of,
    extract_text_with_formatting.
  destruct r as [pg|e]; [|discriminate]. cbn [bind].
  destruct (get_text_blocks pg) as [blocks|e]; [|discriminate].
  cbn [bind fst snd]. rewrite image_branch_eq.
  destruct include_images.
  - destruct (get_images pg) as [image_list|e]; [|discriminate].
    intros _. cbn [bind fst snd andb].
    destruct embed_images, (0 <? page_number)%nat; cbn [negb];
      rewrite <- ?app_assoc; reflexivity.
  - intros _. cbn [bind fst snd andb].
    destruct (0 <? page_number)%nat;
      rewrite <- ?app_assoc, ?app_nil_r; reflexivity.
Qed.

Lemma page_body_unreadable (doc : Document) (include_images embed_images : bool)
    (acc : list str * list ImageDict) (page_number : nat) (r : result Page) :
  readable include_images r = false ->
  exists e, page_body doc include_images embed_images acc page_number r
            = Raise e.
Proof.
  unfold readable, page_body, extract_text_with_formatting.
  destruct r as [pg|e]; [|intros _; now exists e]. cbn [bind].
  destruct (get_text_blocks pg) as [blocks|e]; [|intros _; now exists e].
  cbn [bind snd]. rewrite image_branch_eq.
  destruct include_images; [|discriminate].
  destruct (get_images pg) as [image_list|e]; [discriminate|].
  intros _. now exists e.
Qed.

Lemma nth_app_offset {A : Type} (pre ps : list A) (x d : A) :
  nth (length pre) (pre ++ x :: ps) d = x.
Proof.
  rewrite app_nth2 by lia. now rewrite Nat.sub_diag.
Qed.

(** The loop over the page numbers, started at page [length pre]. *)
Lemma for_each_pages_readable (doc : Document)
    (include_images embed_images : bool) (ps pre : list (result Page))
    (markdown_pages : list str) (all_images : list ImageDict) :
  pages doc = pre ++ ps ->
  forallb (readable include_images) ps = true ->
  for_each (page_step doc include_images embed_images)
           (seq (length pre) (length ps)) (markdown_pages, all_images) =
  Ok (markdown_pages
        ++ page_sequence doc include_images embed_images (length pre) ps,
      all_images ++
        (if include_images && negb embed_images
         then flat_map (fun numbered =>
                          images_of doc (fst numbered) (snd numbered))
                       (enumerate (length pre) ps)
         else [])).
Proof.
  revert pre markdown_pages all_images.
  induction ps as [|r ps IH]; intros pre markdown_pages all_images Hpages Hall.
  - simpl. destruct (include_images && negb embed_images);
      now rewrite !app_nil_r.
  - simpl in Hall. apply andb_true_iff in Hall. destruct Hall as [Hr Hall].
    cbn [length seq for_each].
    rewrite page_step_body, Hpages, nth_app_offset.
    rewrite (page_body_readable _ _ _ _ _ _ _ Hr). cbn [bind].
    specialize (IH (pre ++ [r])).
    rewrite length_app in IH. cbn [length] in IH.
    rewrite Nat.add_1_r in IH.
    rewrite IH; [|now rewrite <- app_assoc|assumption].
    rewrite enumerate_cons. cbn [page_sequence flat_map fst snd].
    f_equal. f_equal.
    + now rewrite <- !app_assoc.
    + destruct (include_images && negb embed_images);
        now rewrite <- ?app_assoc.
Qed.

Lemma for_each_pages_unreadable (doc : Document)
    (include_images embed_images : bool) (ps pre : list (result Page))
    (acc : list str * list ImageDict) :
  pages doc = pre ++ ps ->
  forallb (readable include_images) ps = false ->
  exists e,
    for_each (page_step doc include_images embed_images)
             (seq (length pre) (length ps)) acc = Raise e.
Proof.
  revert pre acc.
  induction ps as [|r ps IH]; intros pre acc Hpages Hall.
  - discriminate.
  - cbn [length seq for_each].
    rewrite page_step_body, Hpages, nth_app_offset.
    destruct (readable include_images r) eqn:Hr.
    + destruct acc as [markdown_pages all_images].
      rewrite (page_body_readable _ _ _ _ _ _ _ Hr). cbn [bind].
      simpl in Hall. rewrite Hr in Hall. simpl in Hall.
      specialize (IH (pre ++ [r])).
      rewrite length_app in IH. cbn [length] in IH.
      rewrite Nat.add_1_r in IH.
      apply IH; [now rewrite <- app_assoc|assumption].
    + destruct (page_body_unreadable doc include_images embed_images acc
                  (length pre) r Hr) as [e He].
      exists e. now rewrite He.
Qed.

Section ConverterFacts.

Variable fitz_open : list byte -> result Document.

(** A conversion whose document opens and whose pages can all be read
    returns, after one [close()]. *)
Lemma convert_readable (pdf_bytes : list byte) (doc : Document)
    (include_images embed_images : bool) (closes : nat) :
  fitz_open pdf_bytes = Ok doc ->
  all_readable include_images doc = true ->
  convert_pdf_to_markdown fitz_open pdf_bytes include_images embed_images
                          closes =
  (Ok {| markdown :=
           join (nl ++ nl)
                (page_sequence doc include_images embed_images 0 (pages doc));
         images := if include_images && negb embed_images
                   then Some (document_images doc) else None |},
   S closes).
Proof.
  intros Hopen Hall. unfold convert_pdf_to_markdown. rewrite Hopen.
  pose proof (for_each_pages_readable doc include_images embed_images
                (pages doc) [] [] [] eq_refl Hall) as Hloop.
  cbn [length app] in Hloop. rewrite Hloop.
  unfold document_images.
  destruct (include_images && negb embed_images); reflexivity.
Qed.

(** A conversion whose document opens and one of whose pages cannot be
    read raises, and [close()] is not called. *)
Lemma convert_unreadable (pdf_bytes : list byte) (doc : Document)
    (include_images embed_images : bool) (closes : nat) :
  fitz_open pdf_bytes = Ok doc ->
  all_readable include_images doc = false ->
  exists e,
    convert_pdf_to_markdown fitz_open pdf_bytes include_images embed_images
                            closes = (Raise e, closes).
Proof.
  intros Hopen Hall. unfold convert_pdf_to_markdown. rewrite Hopen.
  destruct (for_each_pages_unreadable doc include_images embed_images
              (pages doc) [] ([], []) eq_refl Hall) as [e He].
  cbn [length] in He. rewrite He. now exists e.
Qed.

End ConverterFacts.

(** ** Embedded images *)

(** C5: with both flags set, the iteration for a page appends to the page's
    rendered text, for each extracted image in extraction order, the fragment
    made of two line feeds, [![Image ], the image's position plus one,
    [ from page ], the page number plus one, [](data:image/], the format,
    [;base64,], the payload, [)] and a line feed. *)
Theorem embedded_image_fragments (doc : Document) (page_number : nat)
    (pg : Page) (blocks : list Block) (image_list : list ImgInfo)
    (markdown_pages : list str) (all_images : list ImageDict) :
  nth_error (pages doc) page_number = Some (Ok pg) ->
  get_text_blocks pg = Ok blocks ->
  get_images pg = Ok image_list ->
  let page_images := image_entries doc (page_number + 1) image_list in
  page_step doc true true (markdown_pages, all_images) page_number =
    Ok (markdown_pages
          ++ (if (0 <? page_number)%nat then [page_separator page_number]
              else [])
          ++ [render_blocks blocks ++ concat (map image_markdown page_images)],
        all_images) /\
  StronglySorted lt (map index page_images) /\
  (forall img,
      In img page_images ->
      exists i info base_image,
        nth_error image_list i = Some info /\
        extract_image doc (xref info) = Ok base_image /\
        index img = i /\
        image_markdown img =
          nl ++ nl ++ lit "![Image " ++ str_of_nat (i + 1)
             ++ lit " from page " ++ str_of_nat (page_number + 1)
             ++ lit "](data:image/" ++ ext base_image
             ++ lit ";base64," ++ b64encode (image base_image)
             ++ lit ")" ++ nl).
Proof.
  intros Hnth Htext Himgs page_images.
  split; [|split].
  - rewrite page_step_body.
    rewrite (nth_error_nth _ _ _ Hnth).
    assert (Hr : readable true (Ok pg) = true).
    { unfold readable. now rewrite Htext, Himgs. }
    rewrite (page_body_readable _ _ _ _ _ _ _ Hr).
    unfold page_markdown_of, text_of, images_of.
    rewrite Htext, Himgs. cbn [andb negb]. now rewrite app_nil_r.
  - apply image_entries_sorted.
  - intros img Hin. unfold page_images, image_entries in Hin.
    apply in_image_entries in Hin.
    destruct Hin as [i [info [b [_ [Hi [E Himg]]]]]].
    rewrite Nat.sub_0_r in Hi.
    exists i, info, b. rewrite Himg. auto.
Qed.

Lemma embedded_image_fragments_witness :
  page_step sample_document true true ([], []) 0 =
  Ok ([lit "# Title"
         ++ (nl ++ nl ++ lit "![Image 1 from page 1](data:image/png;base64,TQ==)"
                ++ nl)
         ++ (nl ++ nl ++ lit "![Image 3 from page 1](data:image/png;base64,TQ==)"
                ++ nl)],
      []).
Proof.
  exact (proj1 (embedded_image_fragments sample_document 0 sample_page
                  _ _ [] [] eq_refl eq_refl eq_refl)).
Defined.

Section ConverterProperties.

Variable fitz_open : list byte -> result Document.

(** C10: a document that opens and has no page converts to the empty
    markdown, with an empty image list when images are requested and not
    embedded and no image list otherwise; the document is closed once. *)
Theorem empty_document_result (pdf_bytes : list byte) (doc : Document)
    (include_images embed_images : bool) (closes : nat) :
  fitz_open pdf_bytes = Ok doc ->
  pages doc = [] ->
  convert_pdf_to_markdown fitz_open pdf_bytes include_images embed_images
                          closes =
  (Ok {| markdown := [];
         images := if include_images && negb embed_images
                   then Some [] else None |},
   S closes).
Proof.
  intros Hopen Hpages. unfold convert_pdf_to_markdown.
  rewrite Hopen, Hpages. reflexivity.
Qed.

(** C6, amended: when the reader refuses the input, the conversion raises
    at once the HTTP 400 exception whose detail is [Failed to parse PDF: ]
    followed by the reader's message, returns no result and closes nothing.
    When the document opens and every page can be read, the conversion
    returns a result, whatever image extractions fail; when a page cannot be
    read, the reader's exception for it ends the conversion. *)
Theorem conversion_outcomes (pdf_bytes : list byte)
    (include_images embed_images : bool) (closes : nat) :
  match fitz_open pdf_bytes with
  | Raise cause =>
      convert_pdf_to_markdown fitz_open pdf_bytes include_images
                              embed_images closes =
      (Raise (HTTPException 400
                (lit "Failed to parse PDF: " ++ str_of_exn cause)),
       closes)
  | Ok doc =>
      if all_readable include_images doc then
        exists r,
          convert_pdf_to_markdown fitz_open pdf_bytes include_images
                                  embed_images closes = (Ok r, S closes)
      else
        exists e,
          convert_pdf_to_markdown fitz_open pdf_bytes include_images
                                  embed_images closes = (Raise e, closes)
  end.
Proof.
  destruct (fitz_open pdf_bytes) as [doc|cause] eqn:Hopen.
  - destruct (all_readable include_images doc) eqn:Hall.
    + eexists. apply (convert_readable _ _ doc); assumption.
    + apply (convert_unreadable _ _ doc); assumption.
  - unfold convert_pdf_to_markdown. now rewrite Hopen.
Qed.

End ConverterProperties.

Lemma empty_document_result_witness :
  convert_pdf_to_markdown (open_as empty_document) [] true false 0 =
  (Ok {| markdown := []; images := Some [] |}, 1%nat).
Proof.
  exact (empty_document_result (open_as empty_document) [] empty_document
           true false 0 eq_refl eq_refl).
Defined.

(** A refused input: the reader's message is carried in the detail of the
    HTTP 400 exception and nothing is closed. *)
Lemma refused_input :
  convert_pdf_to_markdown refuse [x25; x50; x44; x46] true true 0 =
  (Raise (HTTPException 400 (lit "Failed to parse PDF: no objects found")),
   0%nat).
Proof. reflexivity. Qed.

(** C6, as the claim states it, fails: a document that opens but whose page
    cannot be loaded ends the conversion with the reader's exception, which
    is not a parse failure. *)
Lemma page_failure_aborts :
  open_as broken_page_document [] = Ok broken_page_document /\
  convert_pdf_to_markdown (open_as broken_page_document) [] false false 0 =
  (Raise (Exception (lit "cannot load page")), 0%nat).
Proof. split; reflexivity. Qed.

(** C9: a document that opens and whose second page cannot be loaded ends
    the conversion with an exception and without any call to [close()]. *)
Theorem handle_left_open :
  open_as partly_broken_document [] = Ok partly_broken_document /\
  convert_pdf_to_markdown (open_as partly_broken_document) [] false false 0 =
  (Raise (Exception (lit "cannot load page")), 0%nat).
Proof. split; reflexivity. Qed.


(** ** Substrings of the assembled markdown *)

Lemma starts_with_before (needle a b : str) (c : char) :
  existsb (N.eqb c) needle = false ->
  starts_with needle (a ++ c :: b) = starts_with needle a.
Proof.
  revert a. induction needle as [|n needle IH]; intros a Hc.
  - destruct a; reflexivity.
  - simpl in Hc. apply orb_false_iff in Hc. destruct Hc as [Hn Hc].
    destruct a as [|x a]; simpl.
    + rewrite N.eqb_sym, Hn. reflexivity.
    + now rewrite IH.
Qed.

(** A character that does not occur in [needle] splits the search. *)
Lemma contains_split (needle a b : str) (c : char) :
  existsb (N.eqb c) needle = false ->
  contains needle (a ++ c :: b) = contains needle a || contains needle b.
Proof.
  intros Hc. induction a as [|x a IH].
  - pose proof (starts_with_before needle [] b c Hc) as H.
    cbn [app] in H. cbn [app contains]. rewrite H.
    now rewrite orb_false_r.
  - pose proof (starts_with_before needle (x :: a) b c Hc) as H.
    cbn [app] in H. cbn [app contains]. rewrite IH, H.
    now rewrite orb_assoc.
Qed.

Lemma contains_foreign (needle s : str) :
  needle <> [] ->
  forallb (fun c => negb (existsb (N.eqb c) needle)) s = true ->
  contains needle s = false.
Proof.
  intros Hne. destruct needle as [|n needle]; [congruence|].
  induction s as [|x s IH]; intros Hs.
  - reflexivity.
  - cbn [forallb] in Hs. apply andb_true_iff in Hs. destruct Hs as [Hx Hs].
    cbn [contains starts_with]. rewrite (IH Hs), orb_false_r.
    apply negb_true_iff in Hx. cbn [existsb] in Hx.
    apply orb_false_iff in Hx. destruct Hx as [Hx _].
    now rewrite N.eqb_sym, Hx.
Qed.

Lemma contains_join (needle : str) (parts : list str) :
  needle <> [] ->
  existsb (N.eqb 10) needle = false ->
  contains needle (join (nl ++ nl) parts) = existsb (contains needle) parts.
Proof.
  intros Hne Hnl. induction parts as [|p parts IH].
  - destruct needle; [congruence|reflexivity].
  - destruct parts as [|q parts].
    + cbn [join existsb]. now rewrite orb_false_r.
    + change (join (nl ++ nl) (p :: q :: parts))
        with (p ++ 10%N :: ([] ++ 10%N :: join (nl ++ nl) (q :: parts))).
      rewrite !(contains_split needle _ _ 10%N Hnl), IH.
      cbn [existsb].
      assert (Hnil : contains needle (@nil N) = false)
        by (destruct needle; [congruence|reflexivity]).
      now rewrite Hnil.
Qed.

Lemma digits_of_uint (d : Decimal.uint) :
  forallb (fun c => (48 <=? c)%N && (c <=? 57)%N)
          (lit (DecimalString.NilEmpty.string_of_uint d)) = true.
Proof. induction d; simpl; auto. Qed.

Lemma digits_of_nat (n : nat) :
  forallb (fun c => (48 <=? c)%N && (c <=? 57)%N) (str_of_nat n) = true.
Proof.
  unfold str_of_nat, DecimalString.NilZero.string_of_uint.
  destruct (Nat.to_uint n) eqn:E; try reflexivity;
    rewrite <- E; rewrite <- (digits_of_uint (Nat.to_uint n));
    rewrite E; reflexivity.
Qed.

Lemma forallb_impl {A : Type} (f g : A -> bool) (l : list A) :
  (forall x, f x = true -> g x = true) ->
  forallb f l = true -> forallb g l = true.
Proof.
  intros Hfg. induction l as [|x l IH]; simpl; [auto|].
  intros H. apply andb_true_iff in H. destruct H as [Hx Hl].
  now rewrite (Hfg _ Hx), IH.
Qed.

(** No page separator contains [data:image]. *)
Lemma separator_no_data_uri (page_number : nat) :
  contains (lit "data:image") (page_separator page_number) = false.
Proof.
  unfold page_separator.
  set (needle := lit "data:image").
  set (digits := str_of_nat (page_number + 1)).
  assert (H10 : existsb (N.eqb 10) needle = false) by reflexivity.
  assert (H42 : existsb (N.eqb 42) needle = false) by reflexivity.
  assert (H32 : existsb (N.eqb 32) needle = false) by reflexivity.
  assert (Hdigits : contains needle digits = false).
  { apply contains_foreign; [discriminate|].
    apply (forallb_impl (fun c => (48 <=? c)%N && (c <=? 57)%N));
      [|apply digits_of_nat].
    intros c Hc. apply andb_true_iff in Hc. destruct Hc as [Hlo Hhi].
    apply N.leb_le in Hlo, Hhi.
    unfold needle. cbn [lit list_ascii_of_string map existsb].
    repeat match goal with
           | |- context [N.eqb c ?k] =>
               replace (N.eqb c k) with false
                 by (symmetry; apply N.eqb_neq; cbv; lia)
           end.
    reflexivity. }
  change (nl ++ lit "---" ++ nl ++ nl ++ lit "*Page " ++ digits
             ++ lit "*" ++ nl)
    with ([] ++ 10%N :: (lit "---" ++ 10%N :: ([] ++ 10%N ::
            ([] ++ 42%N :: (lit "Page" ++ 32%N ::
               (digits ++ 42%N :: ([] ++ 10%N :: []))))))).
  rewrite !(contains_split needle _ _ 10%N H10).
  rewrite (contains_split needle _ _ 42%N H42).
  rewrite (contains_split needle _ _ 32%N H32).
  rewrite (contains_split needle _ _ 42%N H42).
  rewrite (contains_split needle _ _ 10%N H10).
  rewrite Hdigits. reflexivity.
Qed.

(** ** The document-wide image list *)

Lemma in_images_of (doc : Document) (p : nat) (r : result Page)
    (img : ImageDict) :
  In img (images_of doc p r) <->
  exists pg image_list i info base_image,
    r = Ok pg /\
    get_images pg = Ok image_list /\
    nth_error image_list i = Some info /\
    extract_image doc (xref info) = Ok base_image /\
    img = {| page := p + 1; index := i;
             format := ext base_image;
             base64 := b64encode (image base_image) |}.
Proof.
  unfold images_of. split.
  - destruct r as [pg|e]; [|contradiction].
    destruct (get_images pg) as [image_list|e] eqn:Himgs; [|contradiction].
    intros Hin. unfold image_entries in Hin.
    apply in_image_entries in Hin.
    destruct Hin as [i [info [b [_ [Hi [E Himg]]]]]].
    rewrite Nat.sub_0_r in Hi.
    exists pg, image_list, i, info, b. auto.
  - intros [pg [image_list [i [info [b [-> [Himgs [Hi [E Himg]]]]]]]]].
    rewrite Himgs. unfold image_entries. apply in_image_entries.
    exists i, info, b. rewrite Nat.sub_0_r. repeat split; auto. lia.
Qed.

Lemma image_entries_before (parent : Document) (page_number : nat)
    (image_list : list ImgInfo) (start : nat) :
  StronglySorted image_before
    (flat_map (image_entry parent page_number) (enumerate start image_list)).
Proof.
  revert start. induction image_list as [|info rest IH]; intros start.
  - constructor.
  - rewrite enumerate_cons. cbn [flat_map].
    unfold image_entry at 1. cbn [fst snd].
    destruct (extract_image parent (xref info)) as [b|e]; simpl.
    + constructor; [apply IH|].
      apply Forall_forall. intros img Himg.
      apply in_image_entries in Himg.
      destruct Himg as [i [info' [b' [Hle [_ [_ ->]]]]]].
      right. simpl. split; [reflexivity|lia].
    + apply IH.
Qed.

Lemma images_of_sorted (doc : Document) (p : nat) (r : result Page) :
  StronglySorted image_before (images_of doc p r).
Proof.
  unfold images_of.
  destruct r as [pg|e]; [|constructor].
  destruct (get_images pg) as [image_list|e]; [|constructor].
  apply image_entries_before.
Qed.

Lemma sorted_app (before : ImageDict -> ImageDict -> Prop)
    (l1 l2 : list ImageDict) :
  StronglySorted before l1 ->
  StronglySorted before l2 ->
  (forall a b, In a l1 -> In b l2 -> before a b) ->
  StronglySorted before (l1 ++ l2).
Proof.
  intros H1 H2 Hcross. induction H1 as [|a l1 Hs IH Hall]; simpl.
  - assumption.
  - constructor.
    + apply IH. intros x y Hx Hy. apply Hcross; [now right|assumption].
    + apply Forall_app. split; [assumption|].
      apply Forall_forall. intros y Hy. apply Hcross; [now left|assumption].
Qed.

Lemma in_numbered_images (doc : Document) (ps : list (result Page))
    (start : nat) (img : ImageDict) :
  In img (flat_map (fun numbered =>
                      images_of doc (fst numbered) (snd numbered))
                   (enumerate start ps)) <->
  exists p r,
    (start <= p)%nat /\ nth_error ps (p - start) = Some r /\
    In img (images_of doc p r).
Proof.
  rewrite in_flat_map. split.
  - intros [[p r] [Hin Himg]]. apply in_enumerate in Hin.
    exists p, r. tauto.
  - intros [p [r [Hle [Hnth Himg]]]]. exists (p, r).
    split; [apply in_enumerate; auto|assumption].
Qed.

Lemma numbered_images_sorted (doc : Document) (ps : list (result Page))
    (start : nat) :
  StronglySorted image_before
    (flat_map (fun numbered => images_of doc (fst numbered) (snd numbered))
              (enumerate start ps)).
Proof.
  revert start. induction ps as [|r ps IH]; intros start.
  - constructor.
  - rewrite enumerate_cons. cbn [flat_map fst snd].
    apply sorted_app; [apply images_of_sorted|apply IH|].
    intros a b Ha Hb.
    apply in_images_of in Ha.
    destruct Ha as [pg [l [i [info [base [_ [_ [_ [_ ->]]]]]]]]].
    apply in_numbered_images in Hb.
    destruct Hb as [p [r' [Hle [_ Hb]]]].
    apply in_images_of in Hb.
    destruct Hb as [pg' [l' [i' [info' [base' [_ [_ [_ [_ ->]]]]]]]]].
    left. simpl. lia.
Qed.

Lemma page_sequence_text_only (doc : Document) (embed_images : bool)
    (ps : list (result Page)) (start : nat) :
  page_sequence doc true false start ps =
  page_sequence doc false embed_images start ps.
Proof.
  revert start. induction ps as [|r ps IH]; intros start; simpl.
  - reflexivity.
  - now rewrite IH.
Qed.

Lemma page_sequence_no_data_uri (doc : Document) (ps : list (result Page))
    (start : nat) :
  (forall r, In r ps -> contains (lit "data:image") (text_of r) = false) ->
  existsb (contains (lit "data:image"))
          (page_sequence doc true false start ps) = false.
Proof.
  revert start. induction ps as [|r ps IH]; intros start Htexts.
  - reflexivity.
  - cbn [page_sequence]. rewrite !existsb_app. cbn [existsb].
    rewrite IH by (intros r' Hr'; apply Htexts; now right).
    unfold page_markdown_of. cbn [andb]. rewrite app_nil_r.
    rewrite (Htexts r) by now left.
    destruct (0 <? start)%nat; cbn [existsb];
      rewrite ?separator_no_data_uri; reflexivity.
Qed.

Lemma all_readable_without_images (doc : Document) :
  all_readable true doc = true -> all_readable false doc = true.
Proof.
  unfold all_readable. apply forallb_impl.
  intros r. unfold readable.
  destruct r as [pg|e]; [|auto].
  destruct (get_text_blocks pg); auto.
Qed.

(** ** The first character of a rendered page *)

Lemma lstrip_begins (s : str) :
  lstrip s = [] \/ begins_with_text (lstrip s).
Proof.
  induction s as [|c s IH]; simpl; [now left|].
  destruct (isspace c) eqn:E; [assumption|].
  right. exact E.
Qed.

Lemma lstrip_snoc (s : str) (c : char) :
  isspace c = false -> lstrip (s ++ [c]) = lstrip s ++ [c].
Proof.
  intros Hc. induction s as [|x s IH]; simpl.
  - now rewrite Hc.
  - destruct (isspace x); [assumption|reflexivity].
Qed.

Lemma strip_begins (s : str) : strip s = [] \/ begins_with_text (strip s).
Proof.
  unfold strip, rstrip.
  destruct (lstrip_begins s) as [H|H].
  - left. now rewrite H.
  - right. destruct (lstrip s) as [|c t]; [contradiction|].
    simpl in H. cbn [rev]. rewrite (lstrip_snoc _ _ H).
    rewrite rev_app_distr. exact H.
Qed.

Lemma join_begins (sep : str) (parts : list str) :
  Forall begins_with_text parts ->
  join sep parts = [] \/ begins_with_text (join sep parts).
Proof.
  intros Hparts. destruct Hparts as [|p parts Hp Hrest]; [now left|].
  right. destruct p as [|c t]; [contradiction|].
  destruct parts; exact Hp.
Qed.

Lemma block_lines_begin (block : Block) :
  Forall begins_with_text (map fst (block_lines block)).
Proof.
  rewrite block_lines_eq, map_map. cbn [fst].
  apply Forall_forall. intros s Hs.
  apply in_map_iff in Hs. destruct Hs as [line [<- Hline]].
  apply filter_In in Hline. destruct Hline as [_ Hkeep].
  unfold survives in Hkeep.
  destruct (strip_begins (line_text line)) as [H|H]; [|assumption].
  rewrite H in Hkeep. discriminate.
Qed.

Lemma block_step_begins (markdown_content : list str) (block : Block) :
  Forall begins_with_text markdown_content ->
  Forall begins_with_text (block_step markdown_content block).
Proof.
  intros Hacc. unfold block_step.
  destruct (type block =? 0)%Z; [|assumption].
  pose proof (render_block_text_cases (block_lines block)) as Hcases.
  pose proof (block_lines_begin block) as Hlines.
  destruct (block_lines block) as [|entry rest].
  - now rewrite Hcases.
  - destruct Hcases as [prefix [Hprefix Hr]]. rewrite Hr.
    apply Forall_app. split; [assumption|].
    constructor; [|constructor].
    assert (Hc : begins_with_text (combined_text (entry :: rest))).
    { unfold combined_text. cbn [map] in *.
      inversion Hlines as [|p ps Hp _].
      destruct (fst entry) as [|c t]; [contradiction|].
      destruct (map fst rest); exact Hp. }
    simpl in Hprefix.
    destruct Hprefix as [<-|[<-|[<-|[<-|[]]]]]; try reflexivity.
    exact Hc.
Qed.

Lemma render_blocks_begins (blocks : list Block) :
  render_blocks blocks = [] \/ begins_with_text (render_blocks blocks).
Proof.
  unfold render_blocks. apply join_begins.
  assert (H : forall acc, Forall begins_with_text acc ->
                          Forall begins_with_text (fold_left block_step blocks acc)).
  { induction blocks as [|b blocks IH]; intros acc Hacc; simpl.
    - assumption.
    - apply IH. now apply block_step_begins. }
  apply H. constructor.
Qed.

Lemma page_markdown_not_separator (doc : Document)
    (include_images embed_images : bool) (page_number : nat)
    (r : result Page) :
  is_page_separator
    (page_markdown_of doc include_images embed_images page_number r) = false.
Proof.
  unfold page_markdown_of, is_page_separator.
  assert (Htext : text_of r = [] \/ begins_with_text (text_of r)).
  { unfold text_of. destruct r as [pg|e]; [|now left].
    destruct (get_text_blocks pg); [apply render_blocks_begins|now left]. }
  destruct Htext as [Htext|Htext].
  - rewrite Htext. cbn [app].
    destruct (include_images && embed_images); [|reflexivity].
    destruct (images_of doc page_number r) as [|img rest]; reflexivity.
  - destruct (text_of r) as [|c t]; [contradiction|].
    simpl in Htext. cbn [app nl starts_with].
    destruct (N.eqb_spec 10 c) as [<-|Hne]; [vm_compute in Htext; discriminate|reflexivity].
Qed.

Lemma separator_is_separator (page_number : nat) :
  is_page_separator (page_separator page_number) = true.
Proof. reflexivity. Qed.

(** ** The shape of the page-text sequence *)

Lemma page_sequence_later (doc : Document) (include_images embed_images : bool)
    (ps : list (result Page)) (start : nat) :
  (0 < start)%nat ->
  let sequence := page_sequence doc include_images embed_images start ps in
  length sequence = (2 * length ps)%nat /\
  length (filter is_page_separator sequence) = length ps /\
  (forall j r,
      nth_error ps j = Some r ->
      nth_error sequence (2 * j) = Some (page_separator (start + j)) /\
      nth_error sequence (2 * j + 1) =
        Some (page_markdown_of doc include_images embed_images (start + j) r)).
Proof.
  revert start. induction ps as [|r0 ps IH]; intros start Hstart sequence.
  - split; [reflexivity|]. split; [reflexivity|].
    intros j r Hj. destruct j; discriminate.
  - subst sequence. cbn [page_sequence].
    destruct (Nat.ltb_spec 0 start) as [_|Hbad]; [|lia].
    destruct (IH (S start) ltac:(lia)) as [Hlen [Hcount Hnth]].
    cbn [app length filter].
    rewrite separator_is_separator, page_markdown_not_separator.
    cbn [length]. split; [lia|]. split; [lia|].
    intros j r Hj. destruct j as [|j].
    + cbn in Hj. injection Hj as <-.
      rewrite Nat.add_0_r. split; reflexivity.
    + cbn [nth_error] in Hj. destruct (Hnth j r Hj) as [Hsep Hmd].
      replace (2 * S j)%nat with (S (S (2 * j))) by lia.
      replace (S (S (2 * j)) + 1)%nat with (S (S (2 * j + 1))) by lia.
      cbn [nth_error].
      replace (start + S j)%nat with (S start + j)%nat by lia.
      split; assumption.
Qed.

Lemma page_sequence_shape (doc : Document) (include_images embed_images : bool)
    (ps : list (result Page)) :
  let sequence := page_sequence doc include_images embed_images 0 ps in
  length sequence = (length ps + (length ps - 1))%nat /\
  length (filter is_page_separator sequence) = (length ps - 1)%nat /\
  (forall i r,
      nth_error ps i = Some r ->
      nth_error sequence (2 * i) =
        Some (page_markdown_of doc include_images embed_images i r) /\
      ((0 < i)%nat ->
       nth_error sequence (2 * i - 1) = Some (page_separator i))).
Proof.
  destruct ps as [|r0 ps]; intros sequence.
  - split; [reflexivity|]. split; [reflexivity|].
    intros i r Hi. destruct i; discriminate.
  - subst sequence. cbn [page_sequence Nat.ltb Nat.leb app].
    destruct (page_sequence_later doc include_images embed_images ps 1
                ltac:(lia)) as [Hlen [Hcount Hnth]].
    cbn [length filter]. rewrite page_markdown_not_separator.
    split; [lia|]. split; [lia|].
    intros i r Hi. destruct i as [|i].
    + cbn in Hi. injection Hi as <-. split; [reflexivity|lia].
    + cbn [nth_error] in Hi. destruct (Hnth i r Hi) as [Hsep Hmd].
      replace (2 * S i)%nat with (S (2 * i + 1)) by lia.
      replace (S (2 * i + 1) - 1)%nat with (S (2 * i)) by lia.
      cbn [nth_error]. split; [exact Hmd|intros _; exact Hsep].
Qed.

(** ** The result of a conversion *)

Section AssemblerProperties.

Variable fitz_open : list byte -> result Document.

(** C4, amended: for a document that opens and whose pages can be read, the
    result has no image list when images are not requested, and none when
    they are requested and embedded.  When they are requested and not
    embedded, the image list holds exactly one entry, with page, index,
    format and payload, for each image whose extraction succeeds, ordered by
    page and then by index in the page, and the markdown is the one produced
    without images: it contains [data:image] only if the text of some page
    does. *)
Theorem image_policy (pdf_bytes : list byte) (doc : Document)
    (include_images embed_images : bool) (closes : nat) :
  fitz_open pdf_bytes = Ok doc ->
  all_readable include_images doc = true ->
  exists r,
    convert_pdf_to_markdown fitz_open pdf_bytes include_images embed_images
                            closes = (Ok r, S closes) /\
    match include_images, embed_images with
    | false, _ => images r = None
    | true, true => images r = None
    | true, false =>
        images r = Some (document_images doc) /\
        (exists r0,
            convert_pdf_to_markdown fitz_open pdf_bytes false false closes
            = (Ok r0, S closes) /\
            markdown r = markdown r0) /\
        ((forall p, In p (pages doc) ->
                    contains (lit "data:image") (text_of p) = false) ->
         contains (lit "data:image") (markdown r) = false)
    end /\
    (forall img,
        In img (document_images doc) <->
        exists p pg image_list i info base_image,
          nth_error (pages doc) p = Some (Ok pg) /\
          get_images pg = Ok image_list /\
          nth_error image_list i = Some info /\
          extract_image doc (xref info) = Ok base_image /\
          img = {| page := p + 1; index := i;
                   format := ext base_image;
                   base64 := b64encode (image base_image) |}) /\
    StronglySorted image_before (document_images doc).
Proof.
  intros Hopen Hall.
  eexists. split; [apply (convert_readable _ _ doc); assumption|].
  split; [|split].
  - destruct include_images, embed_images; cbn [andb negb images markdown];
      try reflexivity.
    split; [reflexivity|]. split.
    + eexists. split.
      * apply (convert_readable _ _ doc);
          [assumption|now apply all_readable_without_images].
      * cbn [markdown]. now rewrite (page_sequence_text_only doc false).
    + intros Htexts.
      rewrite contains_join; [|discriminate|reflexivity].
      now apply page_sequence_no_data_uri.
  - intros img. unfold document_images. rewrite in_numbered_images.
    split.
    + intros [p [r [_ [Hp Himg]]]]. rewrite Nat.sub_0_r in Hp.
      apply in_images_of in Himg.
      destruct Himg as [pg [l [i [info [b [-> [Hl [Hi [E Himg]]]]]]]]].
      exists p, pg, l, i, info, b. auto.
    + intros [p [pg [l [i [info [b [Hp [Hl [Hi [E Himg]]]]]]]]]].
      exists p, (Ok pg). rewrite Nat.sub_0_r.
      split; [lia|]. split; [assumption|].
      apply in_images_of. exists pg, l, i, info, b. auto.
  - apply numbered_images_sorted.
Qed.

End AssemblerProperties.

(** C4, as the claim states it, fails: with images requested and not
    embedded, the markdown of a page whose own text reads [data:image...]
    contains [data:image]. *)
Lemma data_uri_text_kept :
  convert_pdf_to_markdown (open_as data_uri_document) [] true false 0 =
  (Ok {| markdown := lit "data:image/png;base64,AAAA"; images := Some [] |},
   1%nat) /\
  contains (lit "data:image") (lit "data:image/png;base64,AAAA") = true.
Proof. split; reflexivity. Qed.

Lemma image_policy_witness :
  exists r,
    convert_pdf_to_markdown (open_as sample_document) [] true false 0 =
    (Ok r, 1%nat) /\
    images r = Some (document_images sample_document) /\
    contains (lit "data:image") (markdown r) = false.
Proof.
  destruct (image_policy (open_as sample_document) [] sample_document
              true false 0 eq_refl eq_refl)
    as [r [Hconv [[Himgs [_ Hclean]] _]]].
  exists r. split; [exact Hconv|]. split; [exact Himgs|].
  apply Hclean. intros p Hp.
  destruct Hp as [<-|[<-|[]]]; reflexivity.
Defined.



Lemma image_failures_skipped_witness :
  extract_images_as_base64 sample_document sample_page 1 =
  Ok [ {| page := 1; index := 0; format := lit "png"; base64 := lit "TQ==" |};
       {| page := 1; index := 2; format := lit "png"; base64 := lit "TQ==" |} ].
Proof.
  destruct (image_failures_skipped sample_document sample_page 1 _ eq_refl)
    as [page_images [Hextract _]].
  rewrite Hextract. f_equal.
  injection Hextract as <-. reflexivity.
Defined.

(** * Further properties *)

(** ** Trimming *)

Lemma lstrip_empty (s : str) : lstrip s = [] <-> forallb isspace s = true.
Proof.
  induction s as [|c s IH]; simpl; [tauto|].
  destruct (isspace c); simpl; [exact IH|].
  split; discriminate.
Qed.

Lemma forallb_rev {A : Type} (f : A -> bool) (l : list A) :
  forallb f (rev l) = forallb f l.
Proof.
  induction l as [|x l IH]; simpl; [reflexivity|].
  rewrite forallb_app, IH. simpl. rewrite andb_true_r. apply andb_comm.
Qed.

Lemma lstrip_split (s : str) :
  exists pre, s = pre ++ lstrip s /\ forallb isspace pre = true.
Proof.
  induction s as [|c s IH]; simpl.
  - now exists [].
  - destruct (isspace c) eqn:E.
    + destruct IH as [pre [Hs Hpre]]. exists (c :: pre).
      simpl. rewrite E, Hpre. split; [now f_equal|reflexivity].
    + now exists [].
Qed.

Lemma lstrip_fixed (s : str) : begins_with_text s -> lstrip s = s.
Proof.
  destruct s as [|c s]; simpl; [contradiction|].
  now intros ->.
Qed.

Lemma strip_empty (s : str) : strip s = [] <-> forallb isspace s = true.
Proof.
  unfold strip, rstrip. split.
  - intros H. apply (f_equal (@rev _)) in H.
    rewrite rev_involutive in H. cbn [rev] in H.
    apply lstrip_empty in H. rewrite forallb_rev in H.
    destruct (lstrip_begins s) as [Hl|Hl].
    + now apply lstrip_empty.
    + destruct (lstrip s) as [|c t]; [contradiction|].
      simpl in Hl, H. rewrite Hl in H. discriminate.
  - intros H. apply lstrip_empty in H. now rewrite H.
Qed.

Lemma strip_ends (s : str) : strip s = [] \/ ends_with_text (strip s).
Proof.
  unfold ends_with_text, strip, rstrip. rewrite rev_involutive.
  destruct (lstrip_begins (rev (lstrip s))) as [H|H].
  - left. now rewrite H.
  - now right.
Qed.

Lemma strip_split (s : str) :
  exists pre post,
    s = pre ++ strip s ++ post /\
    forallb isspace pre = true /\ forallb isspace post = true.
Proof.
  destruct (lstrip_split s) as [pre [Hs Hpre]].
  destruct (lstrip_split (rev (lstrip s))) as [post [Ht Hpost]].
  exists pre, (rev post). unfold strip, rstrip.
  split; [|split].
  - rewrite <- rev_app_distr, <- Ht, rev_involutive. exact Hs.
  - exact Hpre.
  - now rewrite forallb_rev.
Qed.

Lemma strip_fixed (s : str) :
  begins_with_text s -> ends_with_text s -> strip s = s.
Proof.
  intros Hb He. unfold strip, rstrip.
  rewrite (lstrip_fixed _ Hb), (lstrip_fixed _ He).
  apply rev_involutive.
Qed.

(** A kept line's text is a trimmed string: what [strip] removed from the
    concatenated span outputs is white space at the two ends only, and what
    is left is not empty and has no white space at either end. *)
Theorem kept_line_text_trimmed (block : Block) (s : str) (fs : Q) :
  In (s, fs) (block_lines block) ->
  begins_with_text s /\ ends_with_text s /\ strip s = s /\
  exists line pre post,
    In line (get (lines block) []) /\
    line_text line = pre ++ s ++ post /\
    forallb isspace pre = true /\ forallb isspace post = true.
Proof.
  rewrite block_lines_eq. intros Hin.
  apply in_map_iff in Hin. destruct Hin as [line [Heq Hline]].
  injection Heq as <- _.
  apply filter_In in Hline. destruct Hline as [Hline Hkeep].
  unfold survives in Hkeep.
  assert (Hb : begins_with_text (strip (line_text line))).
  { destruct (strip_begins (line_text line)) as [H|H]; [|exact H].
    rewrite H in Hkeep. discriminate. }
  assert (He : ends_with_text (strip (line_text line))).
  { destruct (strip_ends (line_text line)) as [H|H]; [|exact H].
    rewrite H in Hkeep. discriminate. }
  split; [exact Hb|]. split; [exact He|].
  split; [now apply strip_fixed|].
  destruct (strip_split (line_text line)) as [pre [post [Hs [Hpre Hpost]]]].
  exists line, pre, post. auto.
Qed.

Lemma kept_line_text_trimmed_witness :
  strip (lit "Title") = lit "Title".
Proof.
  exact (proj1 (proj2 (proj2
           (kept_line_text_trimmed
              (one_line_block [plain_span " Title  " 24]) (lit "Title") 24
              (or_introl eq_refl))))).
Defined.

(** A line is kept exactly when some character of its concatenated span
    outputs is not white space. *)
Theorem line_kept_iff (line : Line) :
  survives line = true <->
  exists c, In c (line_text line) /\ isspace c = false.
Proof.
  unfold survives. split.
  - intros H.
    destruct (forallb isspace (line_text line)) eqn:E.
    + apply strip_empty in E. rewrite E in H. discriminate.
    + apply not_true_iff_false in E.
      destruct (existsb (fun c => negb (isspace c)) (line_text line)) eqn:X.
      * apply existsb_exists in X. destruct X as [c [Hc Hs]].
        exists c. split; [exact Hc|]. now apply negb_true_iff.
      * exfalso. apply E. apply forallb_forall. intros c Hc.
        destruct (isspace c) eqn:S; [reflexivity|].
        assert (existsb (fun c => negb (isspace c)) (line_text line) = true)
          by (apply existsb_exists; exists c; now rewrite S).
        congruence.
  - intros [c [Hc Hs]].
    destruct (strip (line_text line)) eqn:E; [|reflexivity].
    apply strip_empty in E.
    rewrite forallb_forall in E. rewrite (E c Hc) in Hs. discriminate.
Qed.

Lemma format_span_styled (span : Span) :
  styled span = true -> In 42%N (format_span span).
Proof.
  unfold styled, format_span.
  destruct (truthy (is_bold span)), (truthy (is_italic span)); simpl;
    auto; discriminate.
Qed.

(** A line that holds a bold or italic span is always kept, even when every
    span's text is empty or white space: the emphasis markers are written
    around the text whatever it is. *)
Theorem styled_line_kept (line : Line) (span : Span) :
  In span (get (spans line) []) ->
  styled span = true ->
  survives line = true.
Proof.
  intros Hin Hstyled. apply line_kept_iff.
  exists 42%N. split; [|reflexivity].
  unfold line_text. apply in_concat.
  exists (format_span span). split.
  - now apply in_map.
  - now apply format_span_styled.
Qed.

Lemma styled_line_kept_witness :
  survives (mkLine (Some [mkSpan (Some []) (Some 12) (Some 16%Z)])) = true.
Proof.
  exact (styled_line_kept
           (mkLine (Some [mkSpan (Some []) (Some 12) (Some 16%Z)]))
           (mkSpan (Some []) (Some 12) (Some 16%Z))
           (or_introl eq_refl) eq_refl).
Defined.

(** ** The average of a block *)

Lemma float_add_upper (hi m : Z) (acc q : Q) :
  (0 <= hi)%Z -> (0 <= m)%Z -> (hi * (m + 1) < 2 ^ 53)%Z ->
  acc <= inject_Z (hi * m) -> q <= inject_Z hi ->
  float_add acc q <= inject_Z (hi * (m + 1)).
Proof.
  intros Hhi Hm Hbound Hacc Hq. unfold float_add.
  rewrite <- (fl_small_integer (hi * (m + 1))) by nia.
  apply fl_mono.
  pose proof (fl_mono _ _ Hacc) as H1. rewrite fl_small_integer in H1 by nia.
  pose proof (fl_mono _ _ Hq) as H2. rewrite fl_small_integer in H2 by nia.
  replace (hi * (m + 1))%Z with (hi * m + hi)%Z by lia.
  rewrite inject_Z_plus. lra.
Qed.

Lemma float_add_lower (lo m : Z) (acc q : Q) :
  (0 <= lo)%Z -> (0 <= m)%Z -> (lo * (m + 1) < 2 ^ 53)%Z ->
  inject_Z (lo * m) <= acc -> inject_Z lo <= q ->
  inject_Z (lo * (m + 1)) <= float_add acc q.
Proof.
  intros Hlo Hm Hbound Hacc Hq. unfold float_add.
  rewrite <- (fl_small_integer (lo * (m + 1))) by nia.
  apply fl_mono.
  pose proof (fl_mono _ _ Hacc) as H1. rewrite fl_small_integer in H1 by nia.
  pose proof (fl_mono _ _ Hq) as H2. rewrite fl_small_integer in H2 by nia.
  replace (lo * (m + 1))%Z with (lo * m + lo)%Z by lia.
  rewrite inject_Z_plus. lra.
Qed.

Lemma sum_upper (hi : Z) (qs : list Q) (m : Z) (acc : Q) :
  (0 <= hi)%Z -> (0 <= m)%Z ->
  (hi * (m + Z.of_nat (length qs)) < 2 ^ 53)%Z ->
  acc <= inject_Z (hi * m) ->
  (forall q, In q qs -> q <= inject_Z hi) ->
  fold_left float_add qs acc <= inject_Z (hi * (m + Z.of_nat (length qs))).
Proof.
  intros Hhi. revert m acc.
  induction qs as [|q qs IH]; intros m acc Hm Hbound Hacc Hall.
  - cbn [fold_left length Z.of_nat]. now rewrite Z.add_0_r.
  - cbn [fold_left]. cbn [length] in *. rewrite Nat2Z.inj_succ in *.
    replace (m + Z.succ (Z.of_nat (length qs)))%Z
      with ((m + 1) + Z.of_nat (length qs))%Z in * by lia.
    apply IH; [lia|assumption| |intros; apply Hall; now right].
    apply float_add_upper; [assumption|assumption|nia|assumption|].
    apply Hall. now left.
Qed.

Lemma sum_lower (lo : Z) (qs : list Q) (m : Z) (acc : Q) :
  (0 <= lo)%Z -> (0 <= m)%Z ->
  (lo * (m + Z.of_nat (length qs)) < 2 ^ 53)%Z ->
  inject_Z (lo * m) <= acc ->
  (forall q, In q qs -> inject_Z lo <= q) ->
  inject_Z (lo * (m + Z.of_nat (length qs))) <= fold_left float_add qs acc.
Proof.
  intros Hlo. revert m acc.
  induction qs as [|q qs IH]; intros m acc Hm Hbound Hacc Hall.
  - cbn [fold_left length Z.of_nat]. now rewrite Z.add_0_r.
  - cbn [fold_left]. cbn [length] in *. rewrite Nat2Z.inj_succ in *.
    replace (m + Z.succ (Z.of_nat (length qs)))%Z
      with ((m + 1) + Z.of_nat (length qs))%Z in * by lia.
    apply IH; [lia|assumption| |intros; apply Hall; now right].
    apply float_add_lower; [assumption|assumption|nia|assumption|].
    apply Hall. now left.
Qed.

Lemma length_positive {A : Type} (l : list A) :
  l <> [] -> (0 < Z.of_nat (length l))%Z.
Proof. destruct l; [congruence|]. intros _. cbn [length]. lia. Qed.

Lemma float_mean_upper (hi : Z) (qs : list Q) :
  qs <> [] -> (0 <= hi)%Z ->
  (Z.max 1 hi * Z.of_nat (length qs) < 2 ^ 53)%Z ->
  (forall q, In q qs -> q <= inject_Z hi) ->
  float_mean qs <= inject_Z hi.
Proof.
  intros Hne Hhi Hbound Hall.
  pose proof (length_positive qs Hne) as Hn.
  set (n := Z.of_nat (length qs)) in *.
  assert (Hsum : fold_left float_add qs 0 <= inject_Z (hi * n)).
  { pose proof (sum_upper hi qs 0 0 Hhi (Z.le_refl 0)) as H.
    rewrite Z.add_0_l in H. apply H; [nia|now rewrite Z.mul_0_r|assumption]. }
  unfold float_mean, float_div. fold n.
  assert (Hpos : 0 < inject_Z n).
  { change 0 with (inject_Z 0). rewrite <- Zlt_Qlt. lia. }
  assert (Hfn : fl (inject_Z n) == inject_Z n) by (apply fl_small_integer; nia).
  apply fl_mono in Hsum. rewrite fl_small_integer in Hsum by nia.
  rewrite <- (fl_small_integer hi) by nia. apply fl_mono.
  rewrite Hfn. apply Qle_shift_div_r; [assumption|].
  now rewrite <- inject_Z_mult.
Qed.

Lemma float_mean_lower (lo : Z) (qs : list Q) :
  qs <> [] -> (0 <= lo)%Z ->
  (Z.max 1 lo * Z.of_nat (length qs) < 2 ^ 53)%Z ->
  (forall q, In q qs -> inject_Z lo <= q) ->
  inject_Z lo <= float_mean qs.
Proof.
  intros Hne Hlo Hbound Hall.
  pose proof (length_positive qs Hne) as Hn.
  set (n := Z.of_nat (length qs)) in *.
  assert (Hsum : inject_Z (lo * n) <= fold_left float_add qs 0).
  { pose proof (sum_lower lo qs 0 0 Hlo (Z.le_refl 0)) as H.
    rewrite Z.add_0_l in H. apply H; [nia|now rewrite Z.mul_0_r|assumption]. }
  unfold float_mean, float_div. fold n.
  assert (Hpos : 0 < inject_Z n).
  { change 0 with (inject_Z 0). rewrite <- Zlt_Qlt. lia. }
  assert (Hfn : fl (inject_Z n) == inject_Z n) by (apply fl_small_integer; nia).
  apply fl_mono in Hsum. rewrite fl_small_integer in Hsum by nia.
  rewrite <- (fl_small_integer lo) by nia. apply fl_mono.
  rewrite Hfn. apply Qle_shift_div_l; [assumption|].
  now rewrite <- inject_Z_mult.
Qed.

Lemma kept_sizes_eq (block : Block) :
  kept_sizes block = map snd (block_lines block).
Proof. unfold kept_sizes. now rewrite block_lines_eq, map_map. Qed.

(** The string a text block with kept lines appends, by the position of
    the average. *)
Lemma block_step_by_average (block : Block) (markdown_content : list str) :
  type block = 0%Z ->
  block_lines block <> [] ->
  let avg := avg_font_size (block_lines block) in
  let c := combined_text (block_lines block) in
  (18 < avg ->
   block_step markdown_content block = markdown_content ++ [lit "# " ++ c]) /\
  (14 < avg -> avg <= 18 ->
   block_step markdown_content block = markdown_content ++ [lit "## " ++ c]) /\
  (12 < avg -> avg <= 14 ->
   block_step markdown_content block = markdown_content ++ [lit "### " ++ c]) /\
  (avg <= 12 ->
   block_step markdown_content block = markdown_content ++ [c]).
Proof.
  intros Htype Hne avg c.
  rewrite (block_step_text _ _ Htype). unfold render_block_text.
  destruct (block_lines block) as [|entry rest] eqn:Hbl; [congruence|].
  fold avg c.
  destruct (Qltb 18 avg) eqn:E18;
    [|destruct (Qltb 14 avg) eqn:E14;
      [|destruct (Qltb 12 avg) eqn:E12]];
    repeat match goal with
           | H : Qltb _ _ = true |- _ => apply Qltb_lt in H
           | H : Qltb _ _ = false |- _ => apply Qltb_ge in H
           end;
    repeat split; intros; try reflexivity; exfalso; lra.
Qed.

Lemma avg_between (block : Block) (lo hi : Z) :
  block_lines block <> [] ->
  (0 <= lo)%Z ->
  (Z.max 1 hi * Z.of_nat (length (block_lines block)) < 2 ^ 53)%Z ->
  (forall entry, In entry (block_lines block) ->
                 inject_Z lo <= snd entry /\ snd entry <= inject_Z hi) ->
  inject_Z lo <= avg_font_size (block_lines block) /\
  avg_font_size (block_lines block) <= inject_Z hi.
Proof.
  intros Hne Hlo Hbound Hall.
  rewrite avg_font_size_mean, kept_sizes_eq.
  assert (Hne' : map snd (block_lines block) <> [])
    by (destruct (block_lines block); [congruence|discriminate]).
  assert (Hle : (lo <= hi)%Z).
  { destruct (block_lines block) as [|entry rest]; [congruence|].
    destruct (Hall entry (or_introl eq_refl)) as [H1 H2].
    rewrite Zle_Qle. lra. }
  pose proof (length_positive _ Hne) as Hn.
  split.
  - apply float_mean_lower; [assumption|assumption|rewrite length_map; nia|].
    intros q Hq. apply in_map_iff in Hq. destruct Hq as [e [<- He]].
    now apply Hall.
  - apply float_mean_upper; [assumption|lia|now rewrite length_map|].
    intros q Hq. apply in_map_iff in Hq. destruct Hq as [e [<- He]].
    now apply Hall.
Qed.

(** When the sizes of the kept lines of a block lie between two whole
    numbers, so does the average that line 85 computes, provided the sum of
    the sizes stays below [2 ^ 53], where whole numbers are doubles.  Lines
    that agree on a heading level in this way give the block that level:
    all at least 19 give level 1, all from 15 to 18 give level 2, all from
    13 to 14 give level 3, and all at most 12 give a plain paragraph. *)
Theorem uniform_lines_level (block : Block) (markdown_content : list str)
    (lo hi : Z) :
  type block = 0%Z ->
  block_lines block <> [] ->
  (0 <= lo)%Z ->
  (Z.max 1 hi * Z.of_nat (length (block_lines block)) < 2 ^ 53)%Z ->
  (forall entry, In entry (block_lines block) ->
                 inject_Z lo <= snd entry /\ snd entry <= inject_Z hi) ->
  let avg := avg_font_size (block_lines block) in
  let c := combined_text (block_lines block) in
  inject_Z lo <= avg /\ avg <= inject_Z hi /\
  ((18 < lo)%Z ->
   block_step markdown_content block = markdown_content ++ [lit "# " ++ c]) /\
  ((14 < lo)%Z -> (hi <= 18)%Z ->
   block_step markdown_content block = markdown_content ++ [lit "## " ++ c]) /\
  ((12 < lo)%Z -> (hi <= 14)%Z ->
   block_step markdown_content block = markdown_content ++ [lit "### " ++ c]) /\
  ((hi <= 12)%Z ->
   block_step markdown_content block = markdown_content ++ [c]).
Proof.
  intros Htype Hne Hlo Hbound Hall avg c.
  destruct (avg_between block lo hi Hne Hlo Hbound Hall) as [Hlow Hhigh].
  fold avg in Hlow, Hhigh.
  destruct (block_step_by_average block markdown_content Htype Hne)
    as [H1 [H2 [H3 H4]]].
  fold avg c in H1, H2, H3, H4.
  split; [exact Hlow|]. split; [exact Hhigh|].
  repeat split.
  - intros L. rewrite Zlt_Qlt in L. change (inject_Z 18) with 18 in L.
    apply H1. lra.
  - intros L U. rewrite Zlt_Qlt in L. rewrite Zle_Qle in U.
    change (inject_Z 14) with 14 in L. change (inject_Z 18) with 18 in U.
    apply H2; lra.
  - intros L U. rewrite Zlt_Qlt in L. rewrite Zle_Qle in U.
    change (inject_Z 12) with 12 in L. change (inject_Z 14) with 14 in U.
    apply H3; lra.
  - intros U. rewrite Zle_Qle in U. change (inject_Z 12) with 12 in U.
    apply H4. lra.
Qed.

Lemma uniform_lines_level_witness :
  block_step [] (mkBlock 0 (Some [mkLine (Some [plain_span "Big" 24]);
                                  mkLine (Some [plain_span "title" 20])]))
  = [lit "# Big title"].
Proof.
  refine (proj1 (proj2 (proj2
            (uniform_lines_level
               (mkBlock 0 (Some [mkLine (Some [plain_span "Big" 24]);
                                 mkLine (Some [plain_span "title" 20])]))
               [] 20 24 eq_refl _ _ _ _))) _).
  - discriminate.
  - discriminate.
  - reflexivity.
  - intros entry [<-|[<-|[]]]; split; simpl; discriminate.
  - reflexivity.
Defined.

Lemma line_size_at_most (c : Q) (line : Line) :
  0 <= c ->
  (forall span, In span (get (spans line) []) -> get (size span) 12 <= c) ->
  snd (scan_line line) <= c.
Proof.
  intros Hc Hall. rewrite scan_line_eq. cbn [snd].
  destruct (fold_py_max_attained (span_sizes line) 0) as [H|H].
  - now rewrite H.
  - unfold span_sizes in H at 2. apply in_map_iff in H.
    destruct H as [span [Heq Hspan]]. rewrite <- Heq. now apply Hall.
Qed.

Lemma line_size_nonneg (line : Line) : 0 <= snd (scan_line line).
Proof. rewrite scan_line_eq. cbn [snd]. apply fold_py_max_init. Qed.

(** A text block of fewer than [2 ^ 49] lines none of whose spans is larger
    than 12 points is never a heading; a span without a size counts as 12
    points, so such a block whose spans carry no size at all is a plain
    paragraph. *)
Theorem small_spans_paragraph (block : Block) (markdown_content : list str) :
  type block = 0%Z ->
  block_lines block <> [] ->
  (Z.of_nat (length (get (lines block) [])) < 2 ^ 49)%Z ->
  (forall line span,
      In line (get (lines block) []) ->
      In span (get (spans line) []) ->
      size span = None \/ exists fs, size span = Some fs /\ fs <= 12) ->
  block_step markdown_content block =
  markdown_content ++ [combined_text (block_lines block)].
Proof.
  intros Htype Hne Hcount Hall.
  apply (block_step_by_average block markdown_content Htype Hne).
  apply (avg_between block 0 12 Hne (Z.le_refl 0)).
  - rewrite block_lines_eq, length_map.
    pose proof (filter_length_le survives (get (lines block) [])). lia.
  - intros entry Hentry. rewrite block_lines_eq in Hentry.
    apply in_map_iff in Hentry. destruct Hentry as [line [<- Hline]].
    apply filter_In in Hline. destruct Hline as [Hline _].
    cbn [snd]. split; [apply line_size_nonneg|].
    apply line_size_at_most; [discriminate|].
    intros span Hspan.
    destruct (Hall line span Hline Hspan) as [->|[fs [-> Hfs]]].
    + simpl. apply Qle_refl.
    + exact Hfs.
Qed.

Lemma small_spans_paragraph_witness :
  block_step [] (one_line_block [mkSpan (Some (lit "no size")) None None])
  = [lit "no size"].
Proof.
  refine (small_spans_paragraph
            (one_line_block [mkSpan (Some (lit "no size")) None None]) []
            eq_refl _ _ _).
  - discriminate.
  - reflexivity.
  - intros line span [<-|[]] [<-|[]]. now left.
Defined.

(** ** The text of a page *)

Lemma block_step_output (markdown_content : list str) (block : Block) :
  block_step markdown_content block = markdown_content ++ block_output block.
Proof.
  unfold block_step, block_output.
  destruct (type block =? 0)%Z; [|now rewrite app_nil_r].
  destruct (render_block_text (block_lines block)); [reflexivity|].
  now rewrite app_nil_r.
Qed.

Lemma fold_block_step (blocks : list Block) (markdown_content : list str) :
  fold_left block_step blocks markdown_content =
  markdown_content ++ flat_map block_output blocks.
Proof.
  rewrite (fold_left_ext _ _ _ _ block_step_output).
  apply fold_left_snoc.
Qed.

Lemma block_output_silent (block : Block) :
  contributes block = false -> block_output block = [].
Proof.
  unfold contributes, block_output.
  destruct (type block =? 0)%Z; [|reflexivity].
  destruct (block_lines block); [reflexivity|discriminate].
Qed.

Lemma block_output_begins (block : Block) :
  Forall begins_with_text (block_output block).
Proof.
  pose proof (block_step_begins [] block (Forall_nil _)) as H.
  now rewrite block_step_output in H.
Qed.

(** Blocks that are not text blocks, and text blocks without a kept line
    (no [lines] key, no spans, white space only), leave no trace in the
    page's text: no empty paragraph and no extra blank line. *)
Theorem silent_blocks_leave_no_trace (blocks : list Block) :
  render_blocks blocks = render_blocks (filter contributes blocks).
Proof.
  unfold render_blocks. rewrite !fold_block_step. cbn [app]. f_equal.
  induction blocks as [|b blocks IH]; [reflexivity|].
  cbn [flat_map filter].
  destruct (contributes b) eqn:E.
  - cbn [flat_map]. now rewrite IH.
  - now rewrite (block_output_silent b E).
Qed.

Lemma join_app (sep : str) (l1 l2 : list str) :
  l1 <> [] -> l2 <> [] ->
  join sep (l1 ++ l2) = join sep l1 ++ sep ++ join sep l2.
Proof.
  intros H1 H2. induction l1 as [|p l1 IH]; [congruence|].
  destruct l1 as [|q l1].
  - destruct l2; [congruence|reflexivity].
  - change (join sep ((p :: q :: l1) ++ l2))
      with (p ++ sep ++ join sep ((q :: l1) ++ l2)).
    rewrite IH by discriminate.
    change (join sep (p :: q :: l1)) with (p ++ sep ++ join sep (q :: l1)).
    now rewrite <- !app_assoc.
Qed.

Lemma join_empty (sep : str) (parts : list str) :
  Forall begins_with_text parts ->
  join sep parts = [] -> parts = [].
Proof.
  intros Hparts Hjoin. destruct Hparts as [|p parts Hp _]; [reflexivity|].
  destruct p as [|c t]; [contradiction|].
  destruct parts; discriminate.
Qed.

Lemma outputs_begin (blocks : list Block) :
  Forall begins_with_text (flat_map block_output blocks).
Proof.
  induction blocks as [|b blocks IH]; [constructor|].
  cbn [flat_map]. apply Forall_app. split; [apply block_output_begins|exact IH].
Qed.

(** The text of a page is assembled block by block: the text of two runs of
    blocks put together is the two texts with one blank line between them,
    and just the other text when one of them is empty. *)
Theorem render_blocks_app (blocks1 blocks2 : list Block) :
  render_blocks (blocks1 ++ blocks2) =
  match render_blocks blocks1, render_blocks blocks2 with
  | [], t2 => t2
  | t1, [] => t1
  | t1, t2 => t1 ++ (nl ++ nl) ++ t2
  end.
Proof.
  unfold render_blocks. rewrite !fold_block_step. cbn [app].
  rewrite flat_map_app.
  pose proof (join_empty (nl ++ nl) _ (outputs_begin blocks1)) as H1.
  pose proof (join_empty (nl ++ nl) _ (outputs_begin blocks2)) as H2.
  destruct (flat_map block_output blocks1) as [|p1 l1] eqn:E1.
  - reflexivity.
  - destruct (flat_map block_output blocks2) as [|p2 l2] eqn:E2.
    + rewrite app_nil_r.
      destruct (join (nl ++ nl) (p1 :: l1)); reflexivity.
    + rewrite join_app by discriminate.
      destruct (join (nl ++ nl) (p1 :: l1)) eqn:J1;
        [specialize (H1 eq_refl); discriminate|].
      destruct (join (nl ++ nl) (p2 :: l2)) eqn:J2;
        [specialize (H2 eq_refl); discriminate|].
      reflexivity.
Qed.

Lemma ends_app (a b : str) : ends_with_text b -> ends_with_text (a ++ b).
Proof.
  unfold ends_with_text. rewrite rev_app_distr.
  destruct (rev b); [contradiction|auto].
Qed.

Lemma join_ends (sep : str) (parts : list str) :
  Forall ends_with_text parts -> parts <> [] ->
  ends_with_text (join sep parts).
Proof.
  intros Hparts Hne. induction Hparts as [|p parts Hp Hrest IH]; [congruence|].
  destruct parts as [|q parts]; [exact Hp|].
  change (join sep (p :: q :: parts)) with (p ++ sep ++ join sep (q :: parts)).
  apply ends_app, ends_app, IH. discriminate.
Qed.

Lemma block_lines_end (block : Block) :
  Forall ends_with_text (map fst (block_lines block)).
Proof.
  rewrite block_lines_eq, map_map. cbn [fst].
  apply Forall_forall. intros s Hs.
  apply in_map_iff in Hs. destruct Hs as [line [<- Hline]].
  apply filter_In in Hline. destruct Hline as [_ Hkeep].
  unfold survives in Hkeep.
  destruct (strip_ends (line_text line)) as [H|H]; [|assumption].
  rewrite H in Hkeep. discriminate.
Qed.

Lemma block_output_ends (block : Block) :
  Forall ends_with_text (block_output block).
Proof.
  unfold block_output.
  destruct (type block =? 0)%Z; [|constructor].
  pose proof (render_block_text_cases (block_lines block)) as Hcases.
  pose proof (block_lines_end block) as Hlines.
  destruct (block_lines block) as [|entry rest].
  - rewrite Hcases. constructor.
  - destruct Hcases as [prefix [_ Hr]]. rewrite Hr.
    constructor; [|constructor].
    apply ends_app. unfold combined_text.
    apply join_ends; [exact Hlines|discriminate].
Qed.

Lemma outputs_end (blocks : list Block) :
  Forall ends_with_text (flat_map block_output blocks).
Proof.
  induction blocks as [|b blocks IH]; [constructor|].
  cbn [flat_map]. apply Forall_app. split; [apply block_output_ends|exact IH].
Qed.

Lemma block_output_speaks (block : Block) :
  contributes block = true -> block_output block <> [].
Proof.
  unfold contributes, block_output.
  destruct (type block =? 0)%Z; [|discriminate].
  pose proof (render_block_text_cases (block_lines block)) as Hcases.
  destruct (block_lines block); [discriminate|].
  destruct Hcases as [prefix [_ ->]]. discriminate.
Qed.

(** The text of a page carries no white space at its two ends: trimming it
    changes nothing, and it is empty only when no block contributes. *)
Theorem page_text_trimmed (blocks : list Block) :
  strip (render_blocks blocks) = render_blocks blocks /\
  (render_blocks blocks = [] <-> filter contributes blocks = []).
Proof.
  unfold render_blocks. rewrite fold_block_step. cbn [app].
  pose proof (outputs_begin blocks) as Hb.
  pose proof (outputs_end blocks) as He.
  split.
  - destruct (flat_map block_output blocks) as [|p l] eqn:E; [reflexivity|].
    apply strip_fixed.
    + destruct (join_begins (nl ++ nl) _ Hb) as [H|H]; [|exact H].
      apply (join_empty _ _ Hb) in H. discriminate.
    + apply join_ends; [exact He|discriminate].
  - split.
    + intros H. apply (join_empty _ _ Hb) in H.
      clear Hb He. induction blocks as [|b blocks IH]; [reflexivity|].
      cbn [flat_map] in H. apply app_eq_nil in H. destruct H as [Hb Hrest].
      cbn [filter]. destruct (contributes b) eqn:C; [|now apply IH].
      exfalso. revert Hb. now apply block_output_speaks.
    + intros H.
      assert (Hout : flat_map block_output blocks = []).
      { clear Hb He. induction blocks as [|b blocks IH]; [reflexivity|].
        cbn [filter] in H. cbn [flat_map].
        destruct (contributes b) eqn:C; [discriminate|].
        now rewrite (block_output_silent b C), IH. }
      now rewrite Hout.
Qed.

(** ** Failures and flags of a conversion *)

Lemma for_each_ext {A S : Type} (f g : S -> A -> result S) (items : list A)
    (s : S) :
  (forall s x, f s x = g s x) ->
  for_each f items s = for_each g items s.
Proof.
  intros Hfg. revert s.
  induction items as [|x items IH]; intros s; simpl; [reflexivity|].
  rewrite Hfg. destruct (g s x); simpl; auto.
Qed.

Lemma page_step_without_images (doc : Document) (embed_images : bool)
    (acc : list str * list ImageDict) (page_number : nat) :
  page_step doc false embed_images acc page_number =
  page_step doc false false acc page_number.
Proof. destruct acc. reflexivity. Qed.

(** Without [include_images], [embed_images] has no effect at all: the
    conversion gives the same outcome, result or exception, whether it is
    set or not. *)
Theorem embed_alone_ignored (fitz_open : list byte -> result Document)
    (pdf_bytes : list byte) (closes : nat) :
  convert_pdf_to_markdown fitz_open pdf_bytes false true closes =
  convert_pdf_to_markdown fitz_open pdf_bytes false false closes.
Proof.
  unfold convert_pdf_to_markdown.
  destruct (fitz_open pdf_bytes) as [doc|e]; [|reflexivity].
  rewrite (for_each_ext _ _ _ _ (page_step_without_images doc true)).
  reflexivity.
Qed.

Lemma page_failure_none (include_images : bool) (r : result Page) :
  page_failure include_images r = None <-> readable include_images r = true.
Proof.
  unfold page_failure, readable.
  destruct r as [pg|e]; [|split; discriminate].
  destruct (get_text_blocks pg); [|split; discriminate].
  destruct include_images; [|tauto].
  destruct (get_images pg); [tauto|split; discriminate].
Qed.

Lemma first_failure_none (include_images : bool) (ps : list (result Page)) :
  first_failure include_images ps = None <->
  forallb (readable include_images) ps = true.
Proof.
  induction ps as [|r ps IH]; simpl; [tauto|].
  destruct (page_failure include_images r) eqn:E.
  - split; [discriminate|]. intros H.
    apply andb_true_iff in H. destruct H as [Hr _].
    apply page_failure_none in Hr. congruence.
  - apply page_failure_none in E. rewrite E. exact IH.
Qed.

Lemma page_body_failure (doc : Document) (include_images embed_images : bool)
    (acc : list str * list ImageDict) (page_number : nat) (r : result Page)
    (e : exn) :
  page_failure include_images r = Some e ->
  page_body doc include_images embed_images acc page_number r = Raise e.
Proof.
  unfold page_failure, page_body, extract_text_with_formatting.
  destruct r as [pg|e0]; [|now intros [= ->]]. cbn [bind].
  destruct (get_text_blocks pg) as [blocks|e0]; [|now intros [= ->]].
  cbn [bind snd]. rewrite image_branch_eq.
  destruct include_images; [|discriminate].
  destruct (get_images pg) as [image_list|e0]; [discriminate|].
  now intros [= ->].
Qed.

Lemma for_each_pages_failure (doc : Document)
    (include_images embed_images : bool) (ps pre : list (result Page))
    (acc : list str * list ImageDict) (e : exn) :
  pages doc = pre ++ ps ->
  first_failure include_images ps = Some e ->
  for_each (page_step doc include_images embed_images)
           (seq (length pre) (length ps)) acc = Raise e.
Proof.
  revert pre acc.
  induction ps as [|r ps IH]; intros pre acc Hpages Hfirst.
  - discriminate.
  - cbn [length seq for_each].
    rewrite page_step_body, Hpages, nth_app_offset.
    cbn [first_failure] in Hfirst.
    destruct (page_failure include_images r) as [e0|] eqn:Hr.
    + injection Hfirst as ->. now rewrite (page_body_failure _ _ _ _ _ _ _ Hr).
    + apply page_failure_none in Hr.
      destruct acc as [markdown_pages all_images].
      rewrite (page_body_readable _ _ _ _ _ _ _ Hr). cbn [bind].
      specialize (IH (pre ++ [r])).
      rewrite length_app in IH. cbn [length] in IH.
      rewrite Nat.add_1_r in IH.
      apply IH; [now rewrite <- app_assoc|assumption].
Qed.

(** When the document opens, the conversion ends with the exception of the
    first page, in page order, that cannot be loaded or read, passed on
    unchanged and with [close()] never called; within a page, loading comes
    before the text and the text before the image list, which is only asked
    for when images are requested.  With no such page it returns a result
    after exactly one [close()]. *)
Theorem first_page_failure_raised (fitz_open : list byte -> result Document)
    (pdf_bytes : list byte) (doc : Document)
    (include_images embed_images : bool) (closes : nat) :
  fitz_open pdf_bytes = Ok doc ->
  match first_failure include_images (pages doc) with
  | Some e =>
      convert_pdf_to_markdown fitz_open pdf_bytes include_images embed_images
                              closes = (Raise e, closes)
  | None =>
      exists r,
        convert_pdf_to_markdown fitz_open pdf_bytes include_images
                                embed_images closes = (Ok r, S closes)
  end.
Proof.
  intros Hopen.
  destruct (first_failure include_images (pages doc)) as [e|] eqn:Hfirst.
  - unfold convert_pdf_to_markdown. rewrite Hopen.
    pose proof (for_each_pages_failure doc include_images embed_images
                  (pages doc) [] ([], []) e eq_refl Hfirst) as Hloop.
    cbn [length] in Hloop. now rewrite Hloop.
  - apply first_failure_none in Hfirst.
    eexists. apply (convert_readable _ _ doc); assumption.
Qed.

Lemma first_page_failure_raised_witness :
  convert_pdf_to_markdown (open_as partly_broken_document) [] true true 7 =
  (Raise (Exception (lit "cannot load page")), 7%nat).
Proof.
  exact (first_page_failure_raised (open_as partly_broken_document) []
           partly_broken_document true true 7 eq_refl).
Defined.

(** ** Page numbers in separators *)

Lemma lit_inj (s1 s2 : string) : lit s1 = lit s2 -> s1 = s2.
Proof.
  unfold lit. intros H.
  apply (f_equal (map ascii_of_N)) in H.
  rewrite !map_map in H.
  rewrite !(map_ext _ (fun a => a) ascii_N_embedding), !map_id in H.
  apply (f_equal string_of_list_ascii) in H.
  now rewrite !string_of_list_ascii_of_string in H.
Qed.

Lemma to_uint_nonnil (n : nat) : Nat.to_uint n <> Decimal.Nil.
Proof.
  rewrite <- (DecimalNat.Unsigned.of_to n) at 1.
  rewrite DecimalNat.Unsigned.to_of. apply DecimalFacts.unorm_nonnil.
Qed.

Lemma str_of_nat_inj (n m : nat) : str_of_nat n = str_of_nat m -> n = m.
Proof.
  unfold str_of_nat. intros H. apply lit_inj in H.
  apply (f_equal DecimalString.NilZero.uint_of_string) in H.
  rewrite !DecimalString.NilZero.usu in H by apply to_uint_nonnil.
  injection H as H. now apply DecimalNat.Unsigned.to_uint_inj.
Qed.

(** The separator written before a page names that page and no other: two
    separators are the same string only for the same page number, and the
    number in the caption is written with decimal digits only. *)
Theorem separator_names_its_page (i j : nat) :
  (page_separator i = page_separator j -> i = j) /\
  forallb (fun c => (48 <=? c)%N && (c <=? 57)%N) (str_of_nat (i + 1)) = true.
Proof.
  split; [|apply digits_of_nat].
  unfold page_separator. intros H.
  repeat apply app_inv_head in H.
  apply app_inv_tail in H.
  apply str_of_nat_inj in H. lia.
Qed.

(** ** The base64 payload *)

Lemma triples_ind (P : list byte -> Prop) :
  P [] ->
  (forall a, P [a]) ->
  (forall a b, P [a; b]) ->
  (forall a b c rest, P rest -> P (a :: b :: c :: rest)) ->
  forall data, P data.
Proof.
  intros H0 H1 H2 H3 data.
  assert (H : P data /\ (forall a, P (a :: data))
              /\ (forall a b, P (a :: b :: data))).
  { induction data as [|x data [IH0 [IH1 IH2]]].
    - auto.
    - split; [apply IH1|]. split; [intros a; apply IH2|].
      intros a b. now apply H3. }
  apply H.
Qed.

Lemma b64_char_in_alphabet (sextet : N) : In (b64_char sextet) b64_alphabet.
Proof.
  unfold b64_char. apply nth_In.
  change 63%N with (N.ones 6). rewrite N.land_ones.
  pose proof (N.mod_upper_bound sextet (2 ^ 6) ltac:(discriminate)) as H.
  change (length b64_alphabet) with 64%nat.
  change (2 ^ 6)%N with 64%N in *. lia.
Qed.

Lemma b64_char_safe (sextet : N) : is_base64_char (b64_char sextet) = true.
Proof.
  assert (H : forallb is_base64_char b64_alphabet = true) by reflexivity.
  rewrite forallb_forall in H. apply H, b64_char_in_alphabet.
Qed.

(** The payload of an image of [n] bytes has [4 * ceil(n / 3)] characters,
    all of them letters, digits, [+], [/] or [=]: it holds no white space,
    no quote and no parenthesis, so it cannot end the image link it is
    written into. *)
Theorem payload_shape (data : list byte) :
  length (b64encode data) = (4 * ((length data + 2) / 3))%nat /\
  forallb is_base64_char (b64encode data) = true /\
  contains (lit ")") (b64encode data) = false.
Proof.
  assert (Hsafe : forallb is_base64_char (b64encode data) = true).
  { induction data as [| a | a b | a b c rest IH] using triples_ind.
    - reflexivity.
    - cbn [b64encode forallb]. now rewrite !b64_char_safe.
    - cbn [b64encode forallb]. now rewrite !b64_char_safe.
    - cbn [b64encode]. rewrite forallb_app, IH.
      cbn [forallb]. now rewrite !b64_char_safe. }
  split; [|split; [exact Hsafe|]].
  - clear Hsafe.
    induction data as [| a | a b | a b c rest IH] using triples_ind;
      try reflexivity.
    cbn [b64encode]. rewrite length_app, IH. cbn [length].
    replace (S (S (S (length rest))) + 2)%nat
      with (length rest + 2 + 1 * 3)%nat by lia.
    rewrite Nat.div_add by discriminate. lia.
  - apply contains_foreign; [discriminate|].
    revert Hsafe. apply forallb_impl.
    intros c Hc. cbn [lit list_ascii_of_string map existsb].
    destruct (N.eqb_spec c (N_of_ascii ")")) as [->|Hne];
      [discriminate|reflexivity].
Qed.

Lemma land_mul_small (x y k : N) :
  (y < 2 ^ k)%N -> N.land (x * 2 ^ k) y = 0%N.
Proof.
  intros Hy. apply N.bits_inj. intros m.
  rewrite N.land_spec, N.bits_0.
  destruct (N.lt_ge_cases m k) as [Hlt|Hge].
  - now rewrite N.mul_pow2_bits_low.
  - rewrite <- (N.mod_small y (2 ^ k) Hy).
    rewrite N.mod_pow2_bits_high by assumption. apply andb_false_r.
Qed.

Lemma lor_mul_small (x y k : N) :
  (y < 2 ^ k)%N -> N.lor (x * 2 ^ k) y = (x * 2 ^ k + y)%N.
Proof.
  intros Hy. pose proof (land_mul_small x y k Hy) as Hland.
  now rewrite <- (N.lxor_lor _ _ Hland), (N.add_nocarry_lxor _ _ Hland).
Qed.

Lemma pack_two (A B : N) :
  (B < 256)%N ->
  N.lor (N.shiftl A 16) (N.shiftl B 8) = (A * 65536 + B * 256)%N.
Proof.
  intros HB. rewrite !N.shiftl_mul_pow2.
  change (A * 2 ^ 16)%N with (A * 65536)%N.
  change (B * 2 ^ 8)%N with (B * 256)%N.
  replace (A * 65536)%N with (A * 2 ^ 16)%N by reflexivity.
  apply lor_mul_small. change (2 ^ 16)%N with 65536%N. lia.
Qed.

Lemma pack_three (A B C : N) :
  (B < 256)%N -> (C < 256)%N ->
  N.lor (N.lor (N.shiftl A 16) (N.shiftl B 8)) C
  = (A * 65536 + B * 256 + C)%N.
Proof.
  intros HB HC. rewrite (pack_two A B HB).
  replace (A * 65536 + B * 256)%N with ((A * 256 + B) * 2 ^ 8)%N
    by (change (2 ^ 8)%N with 256%N; lia).
  now apply lor_mul_small.
Qed.

Lemma to_N_small (a : byte) : (Byte.to_N a < 256)%N.
Proof. pose proof (Byte.to_N_bounded a). lia. Qed.

Lemma byte_of_to_N (a : byte) : byte_of (Byte.to_N a) = a.
Proof. unfold byte_of. now rewrite Byte.of_to_N. Qed.

Lemma alphabet_positions (k : nat) :
  (k < 64)%nat -> b64_index (nth k b64_alphabet 0%N) = N.of_nat k.
Proof.
  intros Hk.
  do 64 (destruct k as [|k]; [reflexivity|]). lia.
Qed.

Lemma b64_index_char (sextet : N) :
  b64_index (b64_char sextet) = (sextet mod 64)%N.
Proof.
  unfold b64_char. change 63%N with (N.ones 6). rewrite N.land_ones.
  change (2 ^ 6)%N with 64%N.
  pose proof (N.mod_upper_bound sextet 64 ltac:(discriminate)) as H.
  rewrite alphabet_positions by lia. apply N2Nat.id.
Qed.

Lemma b64_char_not_pad (sextet : N) : (b64_char sextet =? 61)%N = false.
Proof.
  assert (H : forallb (fun c => negb (c =? 61)%N) b64_alphabet = true)
    by reflexivity.
  rewrite forallb_forall in H.
  apply negb_true_iff, H, b64_char_in_alphabet.
Qed.

Ltac euclid := zify; Z.to_euclidean_division_equations; lia.

Lemma one_byte_back (A : N) :
  (A < 256)%N ->
  let n := (A * 65536)%N in
  ((((n / 262144) mod 64) * 262144 + ((n / 4096) mod 64) * 4096
    + 0 * 64 + 0) / 65536)%N = A.
Proof. intros HA n. subst n. euclid. Qed.

Lemma two_bytes_back (A B : N) :
  (A < 256)%N -> (B < 256)%N ->
  let n := (A * 65536 + B * 256)%N in
  let n' := (((n / 262144) mod 64) * 262144 + ((n / 4096) mod 64) * 4096
             + ((n / 64) mod 64) * 64 + 0)%N in
  (n' / 65536)%N = A /\ ((n' / 256) mod 256)%N = B.
Proof. intros HA HB n n'. subst n n'. split; euclid. Qed.

Lemma three_bytes_back (A B C : N) :
  (A < 256)%N -> (B < 256)%N -> (C < 256)%N ->
  let n := (A * 65536 + B * 256 + C)%N in
  let n' := (((n / 262144) mod 64) * 262144 + ((n / 4096) mod 64) * 4096
             + ((n / 64) mod 64) * 64 + n mod 64)%N in
  (n' / 65536)%N = A /\ ((n' / 256) mod 256)%N = B /\ (n' mod 256)%N = C.
Proof. intros HA HB HC n n'. subst n n'. repeat split; euclid. Qed.

Lemma b64_index_pad : b64_index 61%N = 0%N.
Proof. reflexivity. Qed.

Lemma decode_encode (data : list byte) :
  b64decode (b64encode data) = Some data.
Proof.
  induction data as [| a | a b | a b c rest IH] using triples_ind.
  - reflexivity.
  - cbn [b64encode b64decode]. unfold b64_pad.
    cbn [N.eqb Pos.eqb]. rewrite b64_index_pad, !b64_index_char.
    rewrite !N.shiftr_div_pow2, N.shiftl_mul_pow2.
    change (2 ^ 18)%N with 262144%N. change (2 ^ 12)%N with 4096%N.
    change (2 ^ 16)%N with 65536%N.
    rewrite (one_byte_back _ (to_N_small a)).
    now rewrite byte_of_to_N.
  - cbn [b64encode b64decode]. unfold b64_pad.
    rewrite b64_char_not_pad. cbn [N.eqb Pos.eqb].
    rewrite b64_index_pad, !b64_index_char.
    rewrite (pack_two _ _ (to_N_small b)).
    rewrite !N.shiftr_div_pow2.
    change (2 ^ 18)%N with 262144%N. change (2 ^ 12)%N with 4096%N.
    change (2 ^ 6)%N with 64%N.
    destruct (two_bytes_back _ _ (to_N_small a) (to_N_small b)) as [Ha Hb].
    cbv zeta in Ha, Hb. rewrite Ha, Hb.
    now rewrite !byte_of_to_N.
  - cbn [b64encode app b64decode].
    rewrite !b64_char_not_pad, IH, !b64_index_char.
    rewrite (pack_three _ _ _ (to_N_small b) (to_N_small c)).
    rewrite !N.shiftr_div_pow2.
    change (2 ^ 18)%N with 262144%N. change (2 ^ 12)%N with 4096%N.
    change (2 ^ 6)%N with 64%N.
    destruct (three_bytes_back _ _ _ (to_N_small a) (to_N_small b)
                (to_N_small c)) as [Ha [Hb Hc]].
    cbv zeta in Ha, Hb, Hc. rewrite Ha, Hb, Hc.
    now rewrite !byte_of_to_N.
Qed.

(** The payload determines the image: reading a payload back gives the
    bytes it was made from, so two images have the same payload only when
    they have the same bytes. *)
Theorem payload_determines_bytes (data1 data2 : list byte) :
  b64decode (b64encode data1) = Some data1 /\
  (b64encode data1 = b64encode data2 -> data1 = data2).
Proof.
  split; [apply decode_encode|].
  intros H. apply (f_equal b64decode) in H.
  rewrite !decode_encode in H. now injection H.
Qed.

(** ** The endpoint *)

Section EndpointProperties.

Variable lower : str -> str.
Variable fitz_open : list byte -> result Document.

(** An upload whose lower-cased name does not end in [.pdf] is turned down
    with the HTTP 400 exception [Uploaded file must be a PDF], whatever its
    bytes are and whatever the flags: the bytes are not parsed, so even a
    file the reader would open is refused, and nothing is opened or
    closed. *)
Theorem wrong_suffix_rejected (name : str) (content : list byte)
    (include_images embed_images : bool) (closes : nat) :
  ends_with (lit ".pdf") (lower name) = false ->
  convert_pdf lower fitz_open (mkUploadFile (Some name) content)
              include_images embed_images closes =
  (Raise (HTTPException 400 (lit "Uploaded file must be a PDF")), closes).
Proof.
  intros Hsuffix. unfold convert_pdf. cbn [filename].
  now rewrite Hsuffix.
Qed.

(** An accepted upload whose document opens and whose pages can be read is
    answered with the name as it was uploaded (not lower-cased), the
    markdown of the conversion, and an image list that is always present:
    the document's extracted images when they are requested and not
    embedded, and the empty list otherwise. *)
Theorem accepted_upload_response (name : str) (content : list byte)
    (doc : Document) (include_images embed_images : bool) (closes : nat) :
  ends_with (lit ".pdf") (lower name) = true ->
  fitz_open content = Ok doc ->
  all_readable include_images doc = true ->
  convert_pdf lower fitz_open (mkUploadFile (Some name) content)
              include_images embed_images closes =
  (Ok {| response_filename := name;
         response_markdown :=
           join (nl ++ nl)
                (page_sequence doc include_images embed_images 0 (pages doc));
         response_images :=
           if include_images && negb embed_images
           then document_images doc else [] |},
   S closes).
Proof.
  intros Hsuffix Hopen Hall. unfold convert_pdf. cbn [filename read].
  rewrite Hsuffix. cbn [negb].
  rewrite (convert_readable fitz_open content doc _ _ _ Hopen Hall).
  cbn [markdown images].
  destruct (include_images && negb embed_images); reflexivity.
Qed.

(** An accepted upload that the converter cannot convert is answered with
    the converter's own exception, unchanged: the parse failure with its
    detail when the reader refuses the bytes, and the reader's exception
    when a page cannot be read.  The parse failure's detail is never the
    one of a wrong suffix. *)
Theorem accepted_upload_failure (name : str) (content : list byte)
    (include_images embed_images : bool) (closes : nat) :
  ends_with (lit ".pdf") (lower name) = true ->
  match fitz_open content with
  | Raise cause =>
      convert_pdf lower fitz_open (mkUploadFile (Some name) content)
                  include_images embed_images closes =
      (Raise (HTTPException 400
                (lit "Failed to parse PDF: " ++ str_of_exn cause)),
       closes) /\
      lit "Failed to parse PDF: " ++ str_of_exn cause
      <> lit "Uploaded file must be a PDF"
  | Ok doc =>
      forall e,
        first_failure include_images (pages doc) = Some e ->
        convert_pdf lower fitz_open (mkUploadFile (Some name) content)
                    include_images embed_images closes = (Raise e, closes)
  end.
Proof.
  intros Hsuffix. unfold convert_pdf. cbn [filename read].
  rewrite Hsuffix. cbn [negb].
  destruct (fitz_open content) as [doc|cause] eqn:Hopen.
  - intros e Hfirst. unfold convert_pdf_to_markdown. rewrite Hopen.
    pose proof (for_each_pages_failure doc include_images embed_images
                  (pages doc) [] ([], []) e eq_refl Hfirst) as Hloop.
    cbn [length] in Hloop. now rewrite Hloop.
  - unfold convert_pdf_to_markdown. rewrite Hopen.
    split; [reflexivity|]. discriminate.
Qed.

End EndpointProperties.

Lemma wrong_suffix_rejected_witness :
  convert_pdf ascii_lower (open_as sample_document)
              (mkUploadFile (Some (lit "Report.PDF.txt")) []) true false 0 =
  (Raise (HTTPException 400 (lit "Uploaded file must be a PDF")), 0%nat).
Proof.
  exact (wrong_suffix_rejected ascii_lower (open_as sample_document)
           (lit "Report.PDF.txt") [] true false 0 eq_refl).
Defined.

Lemma accepted_upload_response_witness :
  convert_pdf ascii_lower (open_as sample_document)
              (mkUploadFile (Some (lit "Report.PDF")) []) true true 0 =
  (Ok {| response_filename := lit "Report.PDF";
         response_markdown :=
           join (nl ++ nl) (page_sequence sample_document true true 0
                                          (pages sample_document));
         response_images := [] |},
   1%nat).
Proof.
  exact (accepted_upload_response ascii_lower (open_as sample_document)
           (lit "Report.PDF") [] sample_document true true 0
           eq_refl eq_refl eq_refl).
Defined.

Lemma accepted_upload_failure_witness :
  convert_pdf ascii_lower refuse (mkUploadFile (Some (lit "a.pdf")) [])
              false false 0 =
  (Raise (HTTPException 400 (lit "Failed to parse PDF: no objects found")),
   0%nat).
Proof.
  exact (proj1 (accepted_upload_failure ascii_lower refuse (lit "a.pdf") []
                  false false 0 eq_refl)).
Defined.

(** ** What the markdown contains *)

Lemma starts_with_app (needle rest : str) :
  starts_with needle (needle ++ rest) = true.
Proof.
  induction needle as [|c needle IH]; [reflexivity|].
  simpl. now rewrite N.eqb_refl, IH.
Qed.

Lemma contains_infix (needle before after : str) :
  contains needle (before ++ needle ++ after) = true.
Proof.
  induction before as [|c before IH].
  - cbn [app]. destruct (needle ++ after) eqn:E.
    + destruct needle; [reflexivity|discriminate].
    + cbn [contains]. now rewrite <- E, starts_with_app.
  - cbn [app contains]. rewrite IH. apply orb_true_r.
Qed.

Lemma contains_decompose (needle s : str) :
  contains needle s = true ->
  exists before after, s = before ++ needle ++ after.
Proof.
  induction s as [|c s IH].
  - destruct needle; [|discriminate]. intros _. now exists [], [].
  - cbn [contains]. intros H. apply orb_true_iff in H.
    destruct H as [H|H].
    + exists []. cbn [app]. clear IH. revert c s H.
      induction needle as [|n needle IHn]; intros c s H.
      * now exists (c :: s).
      * cbn [starts_with] in H. apply andb_true_iff in H.
        destruct H as [Hn Hrest]. apply N.eqb_eq in Hn. subst c.
        destruct needle as [|n' needle'].
        -- now exists s.
        -- destruct s as [|c' s']; [discriminate|].
           destruct (IHn c' s' Hrest) as [after Hafter].
           exists after. cbn [app] in *. now rewrite Hafter.
    + destruct (IH H) as [before [after Hs]].
      exists (c :: before), after. cbn [app]. now rewrite Hs.
Qed.

Lemma contains_within (needle s before after : str) :
  contains needle s = true ->
  contains needle (before ++ s ++ after) = true.
Proof.
  intros H. destruct (contains_decompose _ _ H) as [b [a ->]].
  replace (before ++ (b ++ needle ++ a) ++ after)
    with ((before ++ b) ++ needle ++ (a ++ after))
    by (now rewrite <- !app_assoc).
  apply contains_infix.
Qed.

Lemma join_holds (sep p : str) (parts : list str) :
  In p parts -> exists before after, join sep parts = before ++ p ++ after.
Proof.
  induction parts as [|q parts IH]; [contradiction|].
  intros [->|Hin].
  - destruct parts as [|q' parts'].
    + exists [], []. cbn [join app]. now rewrite app_nil_r.
    + exists [], (sep ++ join sep (q' :: parts')). reflexivity.
  - destruct (IH Hin) as [before [after Hjoin]].
    destruct parts as [|q' parts']; [contradiction|].
    exists (q ++ sep ++ before), after.
    change (join sep (q :: q' :: parts'))
      with (q ++ sep ++ join sep (q' :: parts')).
    rewrite Hjoin. now rewrite <- !app_assoc.
Qed.

(** No text is lost: the trimmed text of every kept line of every text
    block of a page appears, character for character, in the page's text. *)
Theorem kept_text_appears (blocks : list Block) (block : Block)
    (s : str) (fs : Q) :
  In block blocks ->
  type block = 0%Z ->
  In (s, fs) (block_lines block) ->
  contains s (render_blocks blocks) = true.
Proof.
  intros Hblock Htype Hline.
  assert (Hcomb : exists b a, combined_text (block_lines block) = b ++ s ++ a).
  { unfold combined_text. apply join_holds.
    apply in_map_iff. now exists (s, fs). }
  assert (Hout : exists out b a,
             In out (block_output block) /\ out = b ++ s ++ a).
  { unfold block_output. rewrite Htype. cbn [Z.eqb].
    pose proof (render_block_text_cases (block_lines block)) as Hcases.
    destruct (block_lines block) as [|entry rest]; [contradiction|].
    destruct Hcases as [prefix [_ ->]].
    destruct Hcomb as [b [a Hc]].
    exists (prefix ++ combined_text (entry :: rest)), (prefix ++ b), a.
    split; [now left|]. rewrite Hc. now rewrite <- app_assoc. }
  destruct Hout as [out [b [a [Hin ->]]]].
  unfold render_blocks. rewrite fold_block_step. cbn [app].
  assert (Hall : In (b ++ s ++ a) (flat_map block_output blocks)).
  { apply in_flat_map. now exists block. }
  destruct (join_holds (nl ++ nl) _ _ Hall) as [before [after ->]].
  replace (before ++ (b ++ s ++ a) ++ after)
    with ((before ++ b) ++ s ++ (a ++ after))
    by (now rewrite <- !app_assoc).
  apply contains_infix.
Qed.

Lemma kept_text_appears_witness :
  contains (lit "Title")
           (render_blocks [mkBlock 1 None;
                           one_line_block [plain_span " Title " 24]]) = true.
Proof.
  exact (kept_text_appears
           [mkBlock 1 None; one_line_block [plain_span " Title " 24]]
           (one_line_block [plain_span " Title " 24]) (lit "Title") 24
           (or_intror (or_introl eq_refl)) eq_refl (or_introl eq_refl)).
Defined.

Lemma image_markdown_data_uri (img : ImageDict) :
  contains (lit "data:image") (image_markdown img) = true.
Proof.
  unfold image_markdown.
  replace (nl ++ nl ++ lit "![Image " ++ str_of_nat (index img + 1)
              ++ lit " from page " ++ str_of_nat (page img)
              ++ lit "](data:image/" ++ format img ++ lit ";base64,"
              ++ base64 img ++ lit ")" ++ nl)
    with ((nl ++ nl ++ lit "![Image " ++ str_of_nat (index img + 1)
               ++ lit " from page " ++ str_of_nat (page img) ++ lit "](")
            ++ lit "data:image"
            ++ (lit "/" ++ format img ++ lit ";base64,"
                  ++ base64 img ++ lit ")" ++ nl))
    by (now rewrite <- !app_assoc).
  apply contains_infix.
Qed.

Section EmbeddingProperties.

Variable fitz_open : list byte -> result Document.

(** With images requested and embedded, a document one of whose images can
    be extracted gives markdown that contains a [data:image] URI, and the
    result carries no image list. *)
Theorem embedded_images_visible (pdf_bytes : list byte) (doc : Document)
    (closes : nat) :
  fitz_open pdf_bytes = Ok doc ->
  all_readable true doc = true ->
  document_images doc <> [] ->
  exists r,
    convert_pdf_to_markdown fitz_open pdf_bytes true true closes
    = (Ok r, S closes) /\
    contains (lit "data:image") (markdown r) = true /\
    images r = None.
Proof.
  intros Hopen Hall Himgs.
  eexists. split; [apply (convert_readable _ _ doc); assumption|].
  cbn [markdown images andb negb]. split; [|reflexivity].
  rewrite contains_join; [|discriminate|reflexivity].
  apply existsb_exists.
  unfold document_images in Himgs.
  assert (Hex : exists img,
             In img (flat_map (fun numbered =>
                                 images_of doc (fst numbered) (snd numbered))
                              (enumerate 0 (pages doc)))).
  { destruct (flat_map _ _) as [|img rest]; [congruence|].
    exists img. now left. }
  destruct Hex as [img Himg].
  apply in_numbered_images in Himg.
  destruct Himg as [p [r [_ [Hp Himg]]]]. rewrite Nat.sub_0_r in Hp.
  exists (page_markdown_of doc true true p r). split.
  - destruct (page_sequence_shape doc true true (pages doc)) as [_ [_ Hnth]].
    destruct (Hnth p r Hp) as [Hmd _].
    now apply nth_error_In in Hmd.
  - unfold page_markdown_of. cbn [andb].
    destruct (in_split _ _ Himg) as [l1 [l2 ->]].
    rewrite map_app, concat_app. cbn [map concat].
    replace (text_of r ++ concat (map image_markdown l1)
               ++ image_markdown img ++ concat (map image_markdown l2))
      with ((text_of r ++ concat (map image_markdown l1))
              ++ image_markdown img ++ concat (map image_markdown l2))
      by (now rewrite <- !app_assoc).
    apply contains_within, image_markdown_data_uri.
Qed.

End EmbeddingProperties.

Lemma embedded_images_visible_witness :
  exists r,
    convert_pdf_to_markdown (open_as sample_document) [] true true 0
    = (Ok r, 1%nat) /\
    contains (lit "data:image") (markdown r) = true /\
    images r = None.
Proof.
  exact (embedded_images_visible (open_as sample_document) [] sample_document
           0 eq_refl eq_refl ltac:(discriminate)).
Defined.

(** ** Page separators *)

Lemma join_cons (sep p q : str) (parts : list str) :
  join sep (p :: q :: parts) = p ++ sep ++ join sep (q :: parts).
Proof. reflexivity. Qed.

(** Three neighbours of a joined list stand in the result one after the
    other, with the joiner between them. *)
Lemma join_neighbours (sep a b c : str) (parts : list str) (k : nat) :
  nth_error parts k = Some a ->
  nth_error parts (S k) = Some b ->
  nth_error parts (S (S k)) = Some c ->
  exists before after,
    join sep parts = before ++ a ++ sep ++ b ++ sep ++ c ++ after.
Proof.
  revert k. induction parts as [|p parts IH]; intros k Ha Hb Hc.
  - destruct k; discriminate.
  - destruct k as [|k].
    + destruct parts as [|q [|q' parts]]; try discriminate.
      cbn [nth_error] in Ha, Hb, Hc.
      injection Ha as ->. injection Hb as ->. injection Hc as ->.
      rewrite !join_cons.
      destruct parts as [|q'' parts].
      * exists [], []. cbn [join app]. now rewrite app_nil_r.
      * exists [], (sep ++ join sep (q'' :: parts)).
        rewrite join_cons. reflexivity.
    + change (nth_error parts k = Some a) in Ha.
      change (nth_error parts (S k) = Some b) in Hb.
      change (nth_error parts (S (S k)) = Some c) in Hc.
      destruct (IH k Ha Hb Hc) as [before [after Hjoin]].
      destruct parts as [|q parts]; [destruct k; discriminate|].
      exists (p ++ sep ++ before), after.
      rewrite join_cons, Hjoin. now rewrite <- !app_assoc.
Qed.

Section SeparatorProperties.

Variable fitz_open : list byte -> result Document.

(** C8, amended: for a document of [n] pages that opens and whose pages can
    be read, the markdown joins the page-text sequence with two line feeds.
    The sequence has [n + (n - 1)] elements: it starts with the first page's
    string, and every later page [i] (counted from 0) contributes the
    separator made of a line feed, three dashes, two line feeds,
    [*Page ], the number [i + 1], [*] and a line feed, followed by the
    page's string.  Exactly [n - 1] elements are separators, and none of
    them precedes the first page.  In the markdown the separator of every
    later page stands, after two line feeds, before that page's string. *)
Theorem page_separators (pdf_bytes : list byte) (doc : Document)
    (include_images embed_images : bool) (closes : nat) :
  fitz_open pdf_bytes = Ok doc ->
  all_readable include_images doc = true ->
  let n := length (pages doc) in
  let sequence :=
    page_sequence doc include_images embed_images 0 (pages doc) in
  exists r,
    convert_pdf_to_markdown fitz_open pdf_bytes include_images embed_images
                            closes = (Ok r, S closes) /\
    markdown r = join (nl ++ nl) sequence /\
    length sequence = (n + (n - 1))%nat /\
    length (filter is_page_separator sequence) = (n - 1)%nat /\
    (forall i ri,
        nth_error (pages doc) i = Some ri ->
        nth_error sequence (2 * i) =
          Some (page_markdown_of doc include_images embed_images i ri) /\
        ((0 < i)%nat ->
         nth_error sequence (2 * i - 1) =
           Some (nl ++ lit "---" ++ nl ++ nl ++ lit "*Page "
                    ++ str_of_nat (i + 1) ++ lit "*" ++ nl))) /\
    (forall i ri,
        nth_error (pages doc) i = Some ri ->
        is_page_separator
          (page_markdown_of doc include_images embed_images i ri) = false) /\
    (forall i ri,
        nth_error (pages doc) i = Some ri ->
        (0 < i)%nat ->
        (exists before after,
            markdown r =
              before ++ (nl ++ nl)
                ++ (nl ++ lit "---" ++ nl ++ nl ++ lit "*Page "
                       ++ str_of_nat (i + 1) ++ lit "*" ++ nl)
                ++ (nl ++ nl)
                ++ page_markdown_of doc include_images embed_images i ri
                ++ after) /\
        contains (nl ++ lit "---" ++ nl ++ nl ++ lit "*Page "
                     ++ str_of_nat (i + 1) ++ lit "*" ++ nl)
                 (markdown r) = true).
Proof.
  intros Hopen Hall n sequence.
  eexists. split; [apply (convert_readable _ _ doc); assumption|].
  destruct (page_sequence_shape doc include_images embed_images (pages doc))
    as [Hlen [Hcount Hnth]].
  split; [reflexivity|]. split; [exact Hlen|]. split; [exact Hcount|].
  split; [exact Hnth|]. split.
  - intros i ri _. apply page_markdown_not_separator.
  - intros i ri Hri Hi. cbn [markdown]. fold sequence.
    destruct (Hnth i ri Hri) as [Hpage Hsep]. specialize (Hsep Hi).
    fold sequence in Hpage, Hsep.
    assert (Hprev : exists rj, nth_error (pages doc) (i - 1) = Some rj).
    { destruct (nth_error (pages doc) (i - 1)) as [rj|] eqn:E; [now exists rj|].
      apply nth_error_None in E.
      assert (i < length (pages doc))%nat
        by (apply nth_error_Some; congruence).
      lia. }
    destruct Hprev as [rj Hrj].
    destruct (Hnth (i - 1)%nat rj Hrj) as [Hbefore _].
    fold sequence in Hbefore.
    replace (2 * i)%nat with (S (S (2 * (i - 1)))) in Hpage by lia.
    replace (2 * i - 1)%nat with (S (2 * (i - 1))) in Hsep by lia.
    destruct (join_neighbours (nl ++ nl) _ _ _ _ _ Hbefore Hsep Hpage)
      as [before [after Hjoin]].
    rewrite Hjoin. split.
    + exists (before
               ++ page_markdown_of doc include_images embed_images (i - 1) rj),
             after.
      apply app_assoc.
    + rewrite (app_assoc before), (app_assoc (before ++ _)).
      exact (contains_infix (page_separator i) _ _).
Qed.

End SeparatorProperties.

(** C8, as the claim states it, fails: the markdown of a one-page document,
    which has no separator, contains the separator fragment of a seventh
    page when the text of the page reads like one. *)
Lemma separator_in_page_text :
  length (pages separator_text_document) = 1%nat /\
  convert_pdf_to_markdown (open_as separator_text_document) [] false false 0 =
  (Ok {| markdown :=
           lit "x" ++ (nl ++ nl) ++ lit "---" ++ (nl ++ nl)
             ++ lit "*Page 7*" ++ (nl ++ nl) ++ lit "y";
         images := None |},
   1%nat) /\
  contains (nl ++ lit "---" ++ nl ++ nl ++ lit "*Page 7*" ++ nl)
           (lit "x" ++ (nl ++ nl) ++ lit "---" ++ (nl ++ nl)
              ++ lit "*Page 7*" ++ (nl ++ nl) ++ lit "y") = true.
Proof. repeat split; reflexivity. Qed.

Lemma page_separators_witness :
  exists r,
    convert_pdf_to_markdown (open_as sample_document) [] false false 0 =
    (Ok r, 1%nat) /\
    markdown r =
      lit "# Title" ++ (nl ++ nl)
        ++ (nl ++ lit "---" ++ nl ++ nl ++ lit "*Page 2*" ++ nl)
        ++ (nl ++ nl) ++ lit "# Title".
Proof.
  destruct (page_separators (open_as sample_document) [] sample_document
              false false 0 eq_refl eq_refl)
    as [r [Hconv [Hmd _]]].
  exists r. split; [exact Hconv|]. rewrite Hmd. reflexivity.
Defined.
